(** * mdmindmap: the link-graph walker of [src/mdmindmap/core.py]

    A shallow embedding of the core module (frontmatter parser, link
    extractor, link resolver, graph walker) and of the cache round trip of
    [src/mdmindmap/cli.py].

    Conventions of the embedding.
    - In the walker a Python [str] is a [string]; a character is read as the
      code point U+0000..U+00FF it denotes, so [\s], [str.strip] and
      [str.lower] are the Unicode ones restricted to that range.  In the
      part on the cache a [str] is the list of its code points, any of
      U+0000..U+10FFFF.
    - Paths follow [posixpath].
    - What the module imports from outside the repository ([urlparse],
      [unquote], [yaml.safe_load], [markdown.markdown]) and the operating
      system ([os.path.exists], [os.listdir], [open], ...) are fields of the
      records [libs] and [filesystem]; every theorem quantifies over them.
    - An exception is a value ([Raise e]); the recursion of [parse_md] is
      driven by a fuel argument and its result says when the fuel ran out.
    - The limits of the interpreter (recursion depth, memory) are not part
      of the model: what is stated of a call is stated of a call that stays
      within them. *)

From Stdlib Require Import String Ascii List ZArith Lia Bool.
From Stdlib Require Import DecimalString.
From stdpp Require Import base gmap sets strings list.
Import ListNotations.

Local Open Scope string_scope.
Local Open Scope nat_scope.
Set Warnings "-register-all".
#[local] Arguments String.append : simpl nomatch.

(** ** Characters and strings *)

Definition code (c : ascii) : nat := nat_of_ascii c.

Definition NL : ascii := ascii_of_nat 10.
Definition SEP : ascii := "/"%char.
Definition DOT : ascii := "."%char.

(** [str.isspace] on U+0000..U+00FF; this is also what [\s] matches. *)
Definition is_space (c : ascii) : bool :=
  let n := code c in
  ((9 <=? n) && (n <=? 13)) || ((28 <=? n) && (n <=? 32))
  || (n =? 133) || (n =? 160).

(** [str.lower] on one character of U+0000..U+00FF. *)
Definition lower_char (c : ascii) : ascii :=
  let n := code c in
  if ((65 <=? n) && (n <=? 90))
     || ((192 <=? n) && (n <=? 222) && negb (n =? 215))
  then ascii_of_nat (n + 32) else c.

Fixpoint lower (s : string) : string :=
  match s with
  | EmptyString => EmptyString
  | String c s' => String (lower_char c) (lower s')
  end.

Fixpoint rev_string (s acc : string) : string :=
  match s with
  | EmptyString => acc
  | String c s' => rev_string s' (String c acc)
  end.

Fixpoint lstrip (s : string) : string :=
  match s with
  | String c s' => if is_space c then lstrip s' else s
  | EmptyString => EmptyString
  end.

(** [s.strip()] *)
Definition strip (s : string) : string :=
  rev_string (lstrip (rev_string (lstrip s) "")) "".

Fixpoint strip_prefix (p s : string) : option string :=
  match p with
  | EmptyString => Some s
  | String a p' =>
      match s with
      | String b s' => if Ascii.eqb a b then strip_prefix p' s' else None
      | EmptyString => None
      end
  end.

Definition startswith (s p : string) : bool :=
  match strip_prefix p s with Some _ => true | None => false end.

Fixpoint endswith_char (s : string) (c : ascii) : bool :=
  match s with
  | EmptyString => false
  | String a EmptyString => Ascii.eqb a c
  | String _ s' => endswith_char s' c
  end.

Fixpoint has_char (c : ascii) (s : string) : bool :=
  match s with
  | EmptyString => false
  | String a s' => Ascii.eqb a c || has_char c s'
  end.

Fixpoint all_char (c : ascii) (s : string) : bool :=
  match s with
  | EmptyString => true
  | String a s' => Ascii.eqb a c && all_char c s'
  end.

Definition nonempty (s : string) : bool :=
  match s with EmptyString => false | String _ _ => true end.

(** [s.rstrip(c)] for a single character [c]. *)
Fixpoint rstrip_char (c : ascii) (s : string) : string :=
  match s with
  | EmptyString => EmptyString
  | String a s' =>
      if Ascii.eqb a c && all_char c s' then EmptyString
      else String a (rstrip_char c s')
  end.

(** ** [posixpath] *)

(** [(p[:i], p[i:])] with [i = p.rfind(c) + 1]: the cut after the last [c]. *)
Fixpoint cut_after_last (c : ascii) (p : string) : string * string :=
  match p with
  | EmptyString => (EmptyString, EmptyString)
  | String a p' =>
      let (h, t) := cut_after_last c p' in
      if nonempty h then (String a h, t)
      else if Ascii.eqb a c then (String a EmptyString, t)
      else (EmptyString, String a t)
  end.

(** [(p[:i], p[i:])] with [i = p.rfind(c)], when [c] occurs in [p]. *)
Fixpoint cut_at_last (c : ascii) (p : string) : option (string * string) :=
  match p with
  | EmptyString => None
  | String a p' =>
      match cut_at_last c p' with
      | Some (h, t) => Some (String a h, t)
      | None => if Ascii.eqb a c then Some (EmptyString, p) else None
      end
  end.

Definition dirname (p : string) : string :=
  let head := fst (cut_after_last SEP p) in
  if nonempty head && negb (all_char SEP head) then rstrip_char SEP head
  else head.

Definition basename (p : string) : string := snd (cut_after_last SEP p).

(** [os.path.join(a, b)] *)
Definition join (a b : string) : string :=
  if startswith b "/" then b
  else if negb (nonempty a) || endswith_char a SEP then a ++ b
  else a ++ "/" ++ b.

(** [os.path.splitext]: the extension starts at the last dot of the last
    component, unless only dots precede it there. *)
Definition splitext (p : string) : string * string :=
  let (head, name) := cut_after_last SEP p in
  match cut_at_last DOT name with
  | Some (pre, ext) =>
      if all_char DOT pre then (p, EmptyString) else (head ++ pre, ext)
  | None => (p, EmptyString)
  end.

(** [p.split("/")] *)
Fixpoint split_sep (p : string) : list string :=
  match p with
  | EmptyString => [EmptyString]
  | String a p' =>
      if Ascii.eqb a SEP then EmptyString :: split_sep p'
      else match split_sep p' with
           | x :: xs => String a x :: xs
           | [] => [String a EmptyString]
           end
  end.

(** ["/".join(comps)] *)
Fixpoint join_sep (comps : list string) : string :=
  match comps with
  | [] => EmptyString
  | [x] => x
  | x :: xs => x ++ "/" ++ join_sep xs
  end.

(** The component loop of [normpath]; [new_comps] is kept in order. *)
Fixpoint norm_comps (initial_slashes : nat) (comps new_comps : list string)
  : list string :=
  match comps with
  | [] => new_comps
  | comp :: rest =>
      if String.eqb comp "" || String.eqb comp "." then
        norm_comps initial_slashes rest new_comps
      else if negb (String.eqb comp "..")
              || ((initial_slashes =? 0) && (length new_comps =? 0))
              || match last new_comps with
                 | Some l => String.eqb l ".."
                 | None => false
                 end
      then norm_comps initial_slashes rest (new_comps ++ [comp])
      else norm_comps initial_slashes rest (removelast new_comps)
  end.

Definition normpath (path : string) : string :=
  if negb (nonempty path) then "."
  else
    let initial_slashes :=
      if startswith path "/" then
        if startswith path "//" && negb (startswith path "///") then 2 else 1
      else 0 in
    let comps := norm_comps initial_slashes (split_sep path) [] in
    let p := join_sep comps in
    let p := match initial_slashes with
             | 0 => p
             | 1 => "/" ++ p
             | _ => "//" ++ p
             end in
    if nonempty p then p else ".".

(** [os.path.abspath], with the current directory made explicit. *)
Definition abspath (cwd path : string) : string :=
  normpath (if startswith path "/" then path else join cwd path).

(** [pathlib.PurePosixPath(p).name]: the last component, once empty and
    ["."] components are dropped. *)
Definition path_name (p : string) : string :=
  match last (filter (fun c => negb (String.eqb c "" || String.eqb c "."))
                     (split_sep p)) with
  | Some n => n
  | None => EmptyString
  end.

(** [pathlib.Path(p).stem] *)
Definition stem (p : string) : string :=
  let name := path_name p in
  match cut_at_last DOT name with
  | Some (pre, ext) =>
      if nonempty pre && negb (String.eqb ext ".") then pre else name
  | None => name
  end.

(** ** Exceptions, Python values, the outside world *)

Inductive exn : Type :=
| AttributeError
| ValueError
| YAMLError
| PermissionError
| OSError.

(** The result of code that may raise. *)
Inductive exc (A : Type) : Type :=
| Return (a : A)
| Raise (e : exn).
Arguments Return {A} a.
Arguments Raise {A} e.

Definition exc_bind {A B} (m : exc A) (k : A -> exc B) : exc B :=
  match m with
  | Return a => k a
  | Raise e => Raise e
  end.

Notation "'let!' x ':=' m 'in' k" := (exc_bind m (fun x => k))
  (at level 10, x name, m at level 200, k at level 200).

(** [try: body except Exception: handler] *)
Definition try_except {A} (body : exc A) (handler : A) : exc A :=
  match body with
  | Return a => Return a
  | Raise _ => Return handler
  end.

(** What [yaml.safe_load] can build.  [PyOpaque] stands for the objects
    the walker never looks into (floats, dates, byte strings, sets); it
    carries the two observations the walker makes: [bool(v)] and [str(v)]. *)
Inductive pyval : Type :=
| PyNone
| PyBool (b : bool)
| PyInt (z : Z)
| PyStr (s : string)
| PyList (items : list pyval)
| PyDict (items : list (pyval * pyval))
| PyOpaque (truth : bool) (text : string).

(** [bool(v)] *)
Definition truthy (v : pyval) : bool :=
  match v with
  | PyNone => false
  | PyBool b => b
  | PyInt z => negb (Z.eqb z 0)
  | PyStr s => nonempty s
  | PyList items => match items with [] => false | _ => true end
  | PyDict items => match items with [] => false | _ => true end
  | PyOpaque truth _ => truth
  end.

(** [a or b] *)
Definition py_or (a b : pyval) : pyval := if truthy a then a else b.

Definition is_key (k : string) (kv : pyval * pyval) : bool :=
  match fst kv with
  | PyStr s => String.eqb s k
  | _ => false
  end.

(** [v.get(k)]: only a mapping has the method. *)
Definition py_get (v : pyval) (k : string) : exc pyval :=
  match v with
  | PyDict items =>
      match List.find (is_key k) items with
      | Some kv => Return (snd kv)
      | None => Return PyNone
      end
  | _ => Raise AttributeError
  end.

(** The fields of [urlparse]'s result that the module reads. *)
Record url : Type := Url {
  scheme : string;
  netloc : string;
  url_path : string
}.

(** The imports from outside the repository. *)
Record libs : Type := Libs {
  urlparse : string -> exc url;
  unquote : string -> string;
  safe_load : string -> exc pyval;
  markdown : string -> string;
  py_repr : pyval -> string
}.

(** The operating system as the module sees it.  [listdir] may raise;
    [read_text] is [open(path, encoding="utf-8").read()] and answers [None]
    when that raises; [resolve] is [pathlib.Path.resolve]. *)
Record filesystem : Type := Filesystem {
  cwd : string;
  exists_ : string -> bool;
  isdir : string -> bool;
  listdir : string -> exc (list string);
  read_text : string -> option string;
  resolve : string -> string
}.

(** [str(v)] *)
Definition py_str (L : libs) (v : pyval) : string :=
  match v with
  | PyNone => "None"
  | PyBool true => "True"
  | PyBool false => "False"
  | PyInt z => NilZero.string_of_int (Z.to_int z)
  | PyStr s => s
  | PyOpaque _ text => text
  | PyList _ | PyDict _ => py_repr L v
  end.

(** ** Regular expressions of the module

    Each piece of a pattern is a matcher in continuation-passing style: it
    tries its alternatives in the order of Python's backtracking engine and
    hands the rest of the input to the continuation [k]; the first
    alternative whose continuation succeeds is the match. *)

Definition re_lit {A} (p : string) (k : string -> option A) (s : string)
  : option A :=
  match strip_prefix p s with
  | Some r => k r
  | None => None
  end.

(** [\s*], greedy *)
Fixpoint re_space_star {A} (k : string -> option A) (s : string) : option A :=
  match s with
  | String c s' =>
      if is_space c then
        match re_space_star k s' with
        | Some r => Some r
        | None => k s
        end
      else k s
  | EmptyString => k s
  end.

(** The lazy group 1 (any characters, [DOTALL]); [acc] is what the group
    holds so far. *)
Fixpoint re_any_lazy {A} (k : string -> string -> option A)
  (acc s : string) : option A :=
  match k acc s with
  | Some r => Some r
  | None =>
      match s with
      | String c s' => re_any_lazy k (acc ++ String c "") s'
      | EmptyString => None
      end
  end.

(** The greedy group 2 (any characters, [DOTALL]). *)
Fixpoint re_any_greedy {A} (k : string -> string -> option A)
  (acc s : string) : option A :=
  match s with
  | String c s' =>
      match re_any_greedy k (acc ++ String c "") s' with
      | Some r => Some r
      | None => k acc s
      end
  | EmptyString => k acc s
  end.

(** [$] without [MULTILINE]: at the end, or before a final newline. *)
Definition re_eos {A} (k : option A) (s : string) : option A :=
  match s with
  | EmptyString => k
  | String c EmptyString => if Ascii.eqb c NL then k else None
  | _ => None
  end.

Definition NLs : string := String NL "".

(** The [re.match] of [parse_frontmatter], anchored at the start of [text]:
    three dashes, greedy white space, a newline, the lazy group 1, a newline,
    three dashes, greedy white space, a newline, the greedy group 2, the end
    of the text.  The result is groups 1 and 2. *)
Definition frontmatter_match (text : string) : option (string * string) :=
  re_lit "---"
    (re_space_star
       (re_lit NLs
          (re_any_lazy
             (fun g1 =>
                re_lit (NLs ++ "---")
                  (re_space_star
                     (re_lit NLs
                        (re_any_greedy
                           (fun g2 => re_eos (Some (g1, g2))) ""))))
             "")))
    text.

(** ** [parse_frontmatter] *)

Definition parse_frontmatter (L : libs) (text : string)
  : exc (pyval * string) :=
  match frontmatter_match text with
  | Some (fm_text, body) =>
      let! fm := try_except
                   (let! v := safe_load L fm_text in
                    Return (py_or v (PyDict [])))
                   (PyDict []) in
      Return (fm, body)
  | None => Return (PyDict [], text)
  end.

(** ** [extract_links] *)

(** A greedy run of characters other than [stop]. *)
Fixpoint take_until (stop : ascii) (s : string) : string * string :=
  match s with
  | String c s' =>
      if Ascii.eqb c stop then (EmptyString, s)
      else let (run, rest) := take_until stop s' in (String c run, rest)
  | EmptyString => (EmptyString, EmptyString)
  end.

(** [LINK_RE] matched at the start of [s]: label, target and what follows.
    Each class is greedy and excludes the character that must follow it, so
    the only candidate split is the longest run. *)
Definition link_at (s : string) : option (string * string * string) :=
  match s with
  | String "[" s1 =>
      let (label, r1) := take_until "]" s1 in
      if nonempty label then
        match strip_prefix "](" r1 with
        | Some s2 =>
            let (target, r2) := take_until ")" s2 in
            if nonempty target then
              match r2 with
              | String ")" rest => Some (label, target, rest)
              | _ => None
              end
            else None
        | None => None
        end
      else None
  | _ => None
  end.

(** [LINK_RE.finditer]: leftmost matches, the scan resuming after each. *)
Fixpoint finditer (fuel : nat) (s : string) : list (string * string) :=
  match fuel with
  | 0 => []
  | S fuel' =>
      match s with
      | EmptyString => []
      | String _ s' =>
          match link_at s with
          | Some (label, target, rest) => (label, target) :: finditer fuel' rest
          | None => finditer fuel' s'
          end
      end
  end.

Definition extract_links (mdtext : string) : list (string * string) :=
  finditer (String.length mdtext) mdtext.

Definition render_html (L : libs) (mdtext : string) : string :=
  markdown L mdtext.

(** ** The link resolver *)

(** [a or b] on strings *)
Definition str_or (a b : string) : string := if nonempty a then a else b.

(** Truth of an [Optional[str]]. *)
Definition opt_truthy (o : option string) : bool :=
  match o with
  | Some s => nonempty s
  | None => false
  end.

(** [MD_EXTS] *)
Definition MD_EXTS : list string := [".md"; ".markdown"; ".mdx"].

Definition in_list (s : string) (l : list string) : bool :=
  existsb (String.eqb s) l.

(** The [for entry in os.listdir(d)] loop of [_case_insensitive_existing]. *)
Fixpoint first_entry_match (fs : filesystem) (d b : string)
  (entries : list string) : option string :=
  match entries with
  | [] => None
  | entry :: rest =>
      if String.eqb (lower entry) (lower b) then
        let cand := join d entry in
        if exists_ fs cand then Some (abspath (cwd fs) cand)
        else first_entry_match fs d b rest
      else first_entry_match fs d b rest
  end.

(** [try: body except PermissionError: return None] *)
Definition except_PermissionError {A} (body : exc (option A))
  : exc (option A) :=
  match body with
  | Raise PermissionError => Return None
  | other => other
  end.

Definition _case_insensitive_existing (fs : filesystem) (path : string)
  : exc (option string) :=
  if exists_ fs path then Return (Some (abspath (cwd fs) path))
  else
    let d := dirname path in
    let b := basename path in
    if negb (isdir fs d) then Return None
    else
      except_PermissionError
        (let! entries := listdir fs d in
         Return (first_entry_match fs d b entries)).

(** [candidates.append(x)] *)
Definition append {A} (l : list A) (x : A) : list A := l ++ [x].

(** The candidate list of [resolve_link], built as the code builds it. *)
Definition candidates (fs : filesystem) (raw_abs : string) : list string :=
  let cs := [raw_abs] in
  let cs :=
    if negb (nonempty (snd (splitext raw_abs)))
    then fold_left (fun acc e => append acc (raw_abs ++ e)) MD_EXTS cs
    else cs in
  if isdir fs raw_abs || endswith_char raw_abs SEP
  then fold_left (fun acc e => append acc (join raw_abs ("index" ++ e)))
         MD_EXTS cs
  else cs.

(** The test of one candidate: its hit, if the hit is a markdown file. *)
Definition candidate_hit (fs : filesystem) (c : string)
  : exc (option string) :=
  let! hit := _case_insensitive_existing fs c in
  Return
    (if opt_truthy hit
        && in_list (lower (snd (splitext (default EmptyString hit)))) MD_EXTS
     then Some (abspath (cwd fs) (default EmptyString hit))
     else None).

(** The [for c in candidates] loop. *)
Fixpoint first_hit (fs : filesystem) (cs : list string)
  : exc (option string) :=
  match cs with
  | [] => Return None
  | c :: rest =>
      let! r := candidate_hit fs c in
      match r with
      | Some r => Return (Some r)
      | None => first_hit fs rest
      end
  end.

Definition resolve_link (L : libs) (fs : filesystem)
  (base_file link : string) : exc (option string) :=
  let! p := urlparse L link in
  if nonempty (scheme p) && nonempty (netloc p) then Return None
  else
    let raw_rel := strip (unquote L (url_path p)) in
    if negb (nonempty raw_rel) then Return None
    else
      let base_dir := dirname base_file in
      let raw_abs := abspath (cwd fs) (join base_dir raw_rel) in
      first_hit fs (candidates fs raw_abs).

Definition is_external_link (L : libs) (link : string) : exc bool :=
  let! p := urlparse L link in
  Return (nonempty (scheme p) && nonempty (netloc p)).

Definition _read_file_text (fs : filesystem) (path : string)
  : option string :=
  read_text fs path.

(** ** The graph walker *)

Inductive node : Type :=
  Node (id title content : string) (children : list node).

Definition node_id (n : node) : string :=
  match n with Node i _ _ _ => i end.
Definition node_title (n : node) : string :=
  match n with Node _ t _ _ => t end.
Definition node_content (n : node) : string :=
  match n with Node _ _ c _ => c end.
Definition node_children (n : node) : list node :=
  match n with Node _ _ _ ch => ch end.

(** The visited set [seen]: a Python [set] of paths, shared by the whole
    traversal and updated in place; here it is threaded through. *)
Abbreviation seen_set := (gset string).

(** What a call of the walker comes to: a value and the visited set it left
    behind, an exception, or an exhausted fuel. *)
Inductive res (A : Type) : Type :=
| Done (a : A) (seen : seen_set)
| Raised (e : exn)
| OutOfFuel.
Arguments Done {A} a seen.
Arguments Raised {A} e.
Arguments OutOfFuel {A}.

(** [fm_title = (fm or {}).get("title")] *)
Definition frontmatter_title (fm : pyval) : exc pyval :=
  py_get (py_or fm (PyDict [])) "title".

(** The [if fm_title: ... elif link_text: ... else: ...] of [parse_md]. *)
Definition choose_title (L : libs) (fm_title : pyval)
  (link_text : option string) (path : string) : string :=
  if truthy fm_title then py_str L fm_title
  else match link_text with
       | Some l => if nonempty l then l else stem path
       | None => stem path
       end.

Definition external_node (link_label link_target : string) : node :=
  Node link_target (str_or link_label link_target)
       ("<i>External link: " ++ link_target ++ "</i>") [].

Definition could_not_load_node (resolved link_label : string) : node :=
  Node resolved (str_or link_label (stem resolved))
       "<i>Could not load</i>" [].

Definition unresolved_node (link_label link_target : string) : node :=
  Node link_target (str_or link_label link_target)
       ("<i>Unresolved link: " ++ link_target ++ "</i>") [].

(** The [for link_label, link_target in extract_links(body)] loop;
    [recur] is the recursive call of [parse_md], [children] is
    [node["children"]] so far. *)
Fixpoint walk_links
  (recur : string -> seen_set -> option string -> res (option node))
  (L : libs) (fs : filesystem) (path : string)
  (links : list (string * string)) (children : list node) (seen : seen_set)
  : res (list node) :=
  match links with
  | [] => Done children seen
  | (link_label, link_target) :: rest =>
      match is_external_link L link_target with
      | Raise e => Raised e
      | Return true =>
          walk_links recur L fs path rest
            (append children (external_node link_label link_target)) seen
      | Return false =>
          match resolve_link L fs path link_target with
          | Raise e => Raised e
          | Return resolved =>
              if opt_truthy resolved then
                let r := default EmptyString resolved in
                match recur r seen (Some link_label) with
                | Done (Some child) seen' =>
                    walk_links recur L fs path rest
                      (append children child) seen'
                | Done None seen' =>
                    walk_links recur L fs path rest
                      (append children (could_not_load_node r link_label))
                      seen'
                | Raised e => Raised e
                | OutOfFuel => OutOfFuel
                end
              else
                walk_links recur L fs path rest
                  (append children (unresolved_node link_label link_target))
                  seen
          end
      end
  end.

Fixpoint parse_md (fuel : nat) (L : libs) (fs : filesystem)
  (path : string) (seen : seen_set) (link_text : option string)
  : res (option node) :=
  match fuel with
  | 0 => OutOfFuel
  | S fuel' =>
      let path := resolve fs path in
      match _read_file_text fs path with
      | None => Done None seen
      | Some text =>
          match parse_frontmatter L text with
          | Raise e => Raised e
          | Return (fm, body) =>
              match frontmatter_title fm with
              | Raise e => Raised e
              | Return fm_title =>
                  let title := choose_title L fm_title link_text path in
                  let html_preview := render_html L body in
                  if decide (path ∈ seen) then
                    Done (Some (Node path title html_preview [])) seen
                  else
                    let seen := {[path]} ∪ seen in
                    match walk_links (parse_md fuel' L fs) L fs path
                            (extract_links body) [] seen with
                    | Done children seen' =>
                        Done (Some (Node path title html_preview children))
                             seen'
                    | Raised e => Raised e
                    | OutOfFuel => OutOfFuel
                    end
              end
          end
      end
  end.

(** ** The cache of [cli.py]: [json.dump] and [json.load]

    [main] writes the tree with [json.dump(data, fh)] and a later run reads
    it back with [json.load(fh)].  Both are the standard library's, in
    their default configuration: the output is ASCII, items are separated
    by a comma and a space, keys from values by a colon and a space, and
    strings are scanned as CPython's scanner scans them.

    The cache holds what the files hold, so in this part a [str] is the
    list of its code points, any of U+0000..U+10FFFF, the surrogates
    U+D800..U+DFFF among them: Python allows them in a [str], and
    [yaml.safe_load] returns them for the escapes of a quoted title.  The
    model covers the JSON the trees are made of: strings, arrays, objects
    and the three literals; where a number may start, the decoder answers
    [NotModelled]. *)

Local Close Scope string_scope.
Local Open Scope N_scope.

Abbreviation ustr := (list N).

(** The code points of a string of the walker's model. *)
Definition code_points (s : string) : ustr :=
  map N_of_ascii (list_ascii_of_string s).

(** The dictionary of a node as Python holds it. *)
Inductive tree : Type :=
  Tree (id title content : ustr) (children : list tree).

Fixpoint node_tree (n : node) : tree :=
  match n with
  | Node i t c ch =>
      Tree (code_points i) (code_points t) (code_points c) (map node_tree ch)
  end.

Inductive json : Type :=
| JNull
| JBool (b : bool)
| JStr (s : ustr)
| JArr (items : list json)
| JObj (members : list (ustr * json)).

Fixpoint tree_to_json (t : tree) : json :=
  match t with
  | Tree i ti c ch =>
      JObj [(code_points "id", JStr i); (code_points "title", JStr ti);
            (code_points "content", JStr c);
            (code_points "children", JArr (map tree_to_json ch))]
  end.

Definition node_to_json (n : node) : json := tree_to_json (node_tree n).

Definition DQUOTE : N := 34.
Definition BACKSLASH : N := 92.

Definition hex_digit (d : N) : N := if d <? 10 then 48 + d else 87 + d.

(** [format(n, "04x")], for [n] below 0x10000 *)
Definition hex4 (n : N) : ustr :=
  [hex_digit (n / 4096); hex_digit ((n / 256) mod 16);
   hex_digit ((n / 16) mod 16); hex_digit (n mod 16)].

(** A backslash, the letter u and four digits. *)
Definition u_escape (n : N) : ustr := BACKSLASH :: 117 :: hex4 n.

(** The escape of one code point under [ensure_ascii]: the short escapes,
    the printable ASCII characters as they are, [u_escape] below 0x10000
    and a surrogate pair from there on. *)
Definition encode_char (c : N) : ustr :=
  if c =? 34 then [BACKSLASH; 34]
  else if c =? 92 then [BACKSLASH; 92]
  else if c =? 10 then [BACKSLASH; 110]
  else if c =? 13 then [BACKSLASH; 114]
  else if c =? 9 then [BACKSLASH; 116]
  else if c =? 8 then [BACKSLASH; 98]
  else if c =? 12 then [BACKSLASH; 102]
  else if (32 <=? c) && (c <=? 126) then [c]
  else if c <? 0x10000 then u_escape c
  else
    let n := c - 0x10000 in
    u_escape (N.lor 0xd800 (N.land (N.shiftr n 10) 0x3ff))
    ++ u_escape (N.lor 0xdc00 (N.land n 0x3ff)).

Fixpoint encode_chars (s : ustr) : ustr :=
  match s with
  | [] => []
  | c :: s' => encode_char c ++ encode_chars s'
  end.

Definition encode_string (s : ustr) : ustr :=
  DQUOTE :: encode_chars s ++ [DQUOTE].

(** [", ".join(items)] *)
Fixpoint join_comma (items : list ustr) : ustr :=
  match items with
  | [] => []
  | [x] => x
  | x :: xs => x ++ [44; 32] ++ join_comma xs
  end.

(** [json.dumps] *)
Fixpoint dumps (v : json) : ustr :=
  match v with
  | JNull => code_points "null"
  | JBool true => code_points "true"
  | JBool false => code_points "false"
  | JStr s => encode_string s
  | JArr items => [91] ++ join_comma (map dumps items) ++ [93]
  | JObj members =>
      [123] ++ join_comma
                 (map (fun kv => encode_string (fst kv) ++ [58; 32]
                                 ++ dumps (snd kv))
                      members)
            ++ [125]
  end.

Definition is_json_ws (c : N) : bool :=
  (c =? 32) || (c =? 9) || (c =? 10) || (c =? 13).

Fixpoint skip_ws (s : ustr) : ustr :=
  match s with
  | c :: s' => if is_json_ws c then skip_ws s' else s
  | [] => []
  end.

Definition hex_val (c : N) : option N :=
  if (48 <=? c) && (c <=? 57) then Some (c - 48)
  else if (97 <=? c) && (c <=? 102) then Some (c - 87)
  else if (65 <=? c) && (c <=? 70) then Some (c - 55)
  else None.

(** The number four hexadecimal digits write. *)
Definition decode_u (a b c d : N) : option N :=
  match hex_val a, hex_val b, hex_val c, hex_val d with
  | Some x3, Some x2, Some x1, Some x0 =>
      Some (((x3 * 16 + x2) * 16 + x1) * 16 + x0)
  | _, _, _, _ => None
  end.

Definition is_high_surrogate (u : N) : bool := (0xd800 <=? u) && (u <=? 0xdbff).
Definition is_low_surrogate (u : N) : bool := (0xdc00 <=? u) && (u <=? 0xdfff).

(** The code point a surrogate pair stands for. *)
Definition join_surrogates (hi lo : N) : N :=
  0x10000 + N.lor (N.shiftl (hi - 0xd800) 10) (lo - 0xdc00).

(** The character of a one-letter escape. *)
Definition unescape (e : N) : option N :=
  if e =? 34 then Some 34
  else if e =? 92 then Some 92
  else if e =? 47 then Some 47
  else if e =? 98 then Some 8
  else if e =? 102 then Some 12
  else if e =? 110 then Some 10
  else if e =? 114 then Some 13
  else if e =? 116 then Some 9
  else None.

(** The scan of a string after its opening quote: the string and what
    follows the closing quote.  [None] is a [JSONDecodeError].  After the
    escape of a high surrogate the scanner looks for the escape of a low
    one and joins the two; any other character stays as it is. *)
Fixpoint scan_string (s acc : ustr) : option (ustr * ustr) :=
  match s with
  | [] => None
  | c :: r =>
      if c =? DQUOTE then Some (acc, r)
      else if c =? BACKSLASH then
        match r with
        | e :: r1 =>
            if e =? 117 then
              match r1 with
              | h3 :: h2 :: h1 :: h0 :: r2 =>
                  match decode_u h3 h2 h1 h0 with
                  | Some uni =>
                      if is_high_surrogate uni then
                        match r2 with
                        | b :: u :: l3 :: l2 :: l1 :: l0 :: r3 =>
                            if (b =? BACKSLASH) && (u =? 117) then
                              match decode_u l3 l2 l1 l0 with
                              | Some uni2 =>
                                  if is_low_surrogate uni2 then
                                    scan_string r3
                                      (acc ++ [join_surrogates uni uni2])
                                  else scan_string r2 (acc ++ [uni])
                              | None => None
                              end
                            else scan_string r2 (acc ++ [uni])
                        | _ => scan_string r2 (acc ++ [uni])
                        end
                      else scan_string r2 (acc ++ [uni])
                  | None => None
                  end
              | _ => None
              end
            else
              match unescape e with
              | Some ch => scan_string r1 (acc ++ [ch])
              | None => None
              end
        | [] => None
        end
      else if c <? 32 then None
      else scan_string r (acc ++ [c])
  end.

Fixpoint ustr_eqb (a b : ustr) : bool :=
  match a, b with
  | [], [] => true
  | x :: a', y :: b' => (x =? y) && ustr_eqb a' b'
  | _, _ => false
  end.

(** [s[len(p):]] when [s.startswith(p)] *)
Fixpoint strip_literal (p s : ustr) : option ustr :=
  match p, s with
  | [], _ => Some s
  | x :: p', y :: s' => if x =? y then strip_literal p' s' else None
  | _ :: _, [] => None
  end.

(** [d[k] = v] on a dictionary kept in insertion order. *)
Fixpoint dict_set (members : list (ustr * json)) (k : ustr) (v : json)
  : list (ustr * json) :=
  match members with
  | [] => [(k, v)]
  | (k', v') :: rest =>
      if ustr_eqb k' k then (k', v) :: rest
      else (k', v') :: dict_set rest k v
  end.

(** What the decoder comes to: a value, a [JSONDecodeError], or an input
    that leaves the part of JSON modelled here. *)
Inductive decoded (A : Type) : Type :=
| Decoded (a : A)
| JSONDecodeError
| NotModelled.
Arguments Decoded {A} a.
Arguments JSONDecodeError {A}.
Arguments NotModelled {A}.

(** A character a number, [NaN], [Infinity] or [-Infinity] starts with. *)
Definition may_start_number (c : N) : bool :=
  (c =? 45) || ((48 <=? c) && (c <=? 57)) || (c =? 78) || (c =? 73).

(** The decoder.  [parse_value] reads one value at the start of [s];
    [parse_elements] reads the elements of an array after the opening
    bracket, [parse_members] the members of an object after the opening
    brace, both with what they have read so far. *)
Fixpoint parse_value (fuel : nat) (s : ustr) : decoded (json * ustr) :=
  match fuel with
  | O => NotModelled
  | S fuel' =>
      match s with
      | c :: r =>
          if c =? DQUOTE then
            match scan_string r [] with
            | Some (str, rest) => Decoded (JStr str, rest)
            | None => JSONDecodeError
            end
          else if c =? 123 then
            match skip_ws r with
            | c' :: rest =>
                if c' =? 125 then Decoded (JObj [], rest)
                else parse_members fuel' (c' :: rest) []
            | [] => JSONDecodeError
            end
          else if c =? 91 then
            match skip_ws r with
            | c' :: rest =>
                if c' =? 93 then Decoded (JArr [], rest)
                else parse_elements fuel' (c' :: rest) []
            | [] => JSONDecodeError
            end
          else
            match strip_literal (code_points "null") s,
                  strip_literal (code_points "true") s,
                  strip_literal (code_points "false") s with
            | Some rest, _, _ => Decoded (JNull, rest)
            | _, Some rest, _ => Decoded (JBool true, rest)
            | _, _, Some rest => Decoded (JBool false, rest)
            | _, _, _ =>
                if may_start_number c then NotModelled else JSONDecodeError
            end
      | [] => JSONDecodeError
      end
  end
with parse_elements (fuel : nat) (s : ustr) (acc : list json)
  : decoded (json * ustr) :=
  match fuel with
  | O => NotModelled
  | S fuel' =>
      match parse_value fuel' s with
      | Decoded (v, r) =>
          match skip_ws r with
          | c :: rest =>
              if c =? 93 then Decoded (JArr (acc ++ [v]), rest)
              else if c =? 44 then
                parse_elements fuel' (skip_ws rest) (acc ++ [v])
              else JSONDecodeError
          | [] => JSONDecodeError
          end
      | JSONDecodeError => JSONDecodeError
      | NotModelled => NotModelled
      end
  end
with parse_members (fuel : nat) (s : ustr) (acc : list (ustr * json))
  : decoded (json * ustr) :=
  match fuel with
  | O => NotModelled
  | S fuel' =>
      match s with
      | q :: r =>
          if q =? DQUOTE then
            match scan_string r [] with
            | Some (k, r1) =>
                match skip_ws r1 with
                | c1 :: r2 =>
                    if c1 =? 58 then
                      match parse_value fuel' (skip_ws r2) with
                      | Decoded (v, r3) =>
                          match skip_ws r3 with
                          | c :: rest =>
                              if c =? 125 then
                                Decoded (JObj (dict_set acc k v), rest)
                              else if c =? 44 then
                                parse_members fuel' (skip_ws rest)
                                  (dict_set acc k v)
                              else JSONDecodeError
                          | [] => JSONDecodeError
                          end
                      | JSONDecodeError => JSONDecodeError
                      | NotModelled => NotModelled
                      end
                    else JSONDecodeError
                | [] => JSONDecodeError
                end
            | None => JSONDecodeError
            end
          else JSONDecodeError
      | [] => JSONDecodeError
      end
  end.

(** [json.loads]: one value, white space around it, nothing else.  The
    fuel is two levels of the recursion for each character: a level that
    reads no character is followed by one that reads one. *)
Definition loads (s : ustr) : decoded json :=
  match parse_value (S (2 * length s)) (skip_ws s) with
  | Decoded (v, rest) =>
      match skip_ws rest with
      | [] => Decoded v
      | _ => JSONDecodeError
      end
  | JSONDecodeError => JSONDecodeError
  | NotModelled => NotModelled
  end.

(** Reading a tree back from the dictionary [json.load] returns. *)
Fixpoint tree_of_json (v : json) : option tree :=
  match v with
  | JObj [(k1, JStr i); (k2, JStr t); (k3, JStr c); (k4, JArr items)] =>
      if ustr_eqb k1 (code_points "id") && ustr_eqb k2 (code_points "title")
         && ustr_eqb k3 (code_points "content")
         && ustr_eqb k4 (code_points "children")
      then
        let fix all (l : list json) : option (list tree) :=
          match l with
          | [] => Some []
          | x :: xs =>
              match tree_of_json x, all xs with
              | Some n, Some ns => Some (n :: ns)
              | _, _ => None
              end
          end in
        match all items with
        | Some ch => Some (Tree i t c ch)
        | None => None
        end
      else None
  | _ => None
  end.

(** A [str]: code points up to U+10FFFF. *)
Definition is_str (s : ustr) : bool := forallb (fun c => c <=? 0x10ffff) s.

(** No high surrogate is followed at once by a low one. *)
Fixpoint unpaired (s : ustr) : bool :=
  match s with
  | c :: (d :: _) as s' =>
      negb (is_high_surrogate c && is_low_surrogate d) && unpaired s'
  | _ => true
  end.

(** The strings of a tree are [str]s. *)
Fixpoint str_tree (t : tree) : bool :=
  match t with
  | Tree i ti c ch => is_str i && is_str ti && is_str c && forallb str_tree ch
  end.

(** The strings of a tree are [str]s without such a pair. *)
Fixpoint plain_tree (t : tree) : bool :=
  match t with
  | Tree i ti c ch =>
      is_str i && unpaired i && is_str ti && unpaired ti
      && is_str c && unpaired c && forallb plain_tree ch
  end.

Local Close Scope N_scope.
Local Open Scope string_scope.
Local Open Scope nat_scope.

(** ** A small world for the examples

    Stand-ins for the imported functions, faithful on the inputs the
    examples use, and file systems given by their directories and files. *)
Module Demo.

Definition is_scheme_char (c : ascii) : bool :=
  let n := code c in
  ((97 <=? n) && (n <=? 122)) || ((65 <=? n) && (n <=? 90))
  || ((48 <=? n) && (n <=? 57))
  || (n =? 43) || (n =? 45) || (n =? 46).

Definition is_letter (c : ascii) : bool :=
  let n := code c in
  ((97 <=? n) && (n <=? 122)) || ((65 <=? n) && (n <=? 90)).

Fixpoint all_scheme_chars (s : string) : bool :=
  match s with
  | EmptyString => true
  | String c s' => is_scheme_char c && all_scheme_chars s'
  end.

(** [s] cut before the first character for which [stop] holds. *)
Fixpoint cut_before (stop : ascii -> bool) (s : string) : string * string :=
  match s with
  | String c s' =>
      if stop c then (EmptyString, s)
      else let (a, b) := cut_before stop s' in (String c a, b)
  | EmptyString => (EmptyString, EmptyString)
  end.

Definition drop1 (s : string) : string :=
  match s with String _ s' => s' | EmptyString => EmptyString end.

(** [urlparse]: scheme, then network location, then the path up to the
    query or fragment. *)
Definition urlparse (s : string) : exc url :=
  let (pre, post) := cut_before (Ascii.eqb ":") s in
  let (sch, rest) :=
    match pre, post with
    | String c _, String _ post' =>
        if is_letter c && all_scheme_chars pre then (lower pre, post')
        else (EmptyString, s)
    | _, _ => (EmptyString, s)
    end in
  let (loc, rest) :=
    match strip_prefix "//" rest with
    | Some r =>
        cut_before (fun c => Ascii.eqb c "/" || Ascii.eqb c "?"
                             || Ascii.eqb c "#") r
    | None => (EmptyString, rest)
    end in
  if xorb (has_char "[" loc) (has_char "]" loc) then Raise ValueError
  else
    let (p, _) :=
      cut_before (fun c => Ascii.eqb c "?" || Ascii.eqb c "#") rest in
    Return (Url sch loc p).

Definition scalar (s : string) : pyval :=
  if String.eqb s "" then PyNone
  else if String.eqb s "true" then PyBool true
  else if String.eqb s "false" then PyBool false
  else if String.eqb s "0" then PyInt 0
  else PyStr s.

(** [yaml.safe_load] on the one-line documents of the examples: a plain
    scalar, or a single [key: value] pair; an opening bracket alone is a
    syntax error. *)
Definition safe_load (s : string) : exc pyval :=
  if String.eqb s "[" then Raise YAMLError
  else
    let (k, v) := cut_before (Ascii.eqb ":") s in
    match v with
    | EmptyString => Return (scalar s)
    | String _ v' => Return (PyDict [(PyStr k, scalar (lstrip v'))])
    end.

Definition L : libs :=
  Libs urlparse (fun s => s) safe_load
       (fun s => "<p>" ++ s ++ "</p>") (fun _ => "").

Fixpoint lookup_str {A} (k : string) (l : list (string * A)) : option A :=
  match l with
  | [] => None
  | (k', v) :: rest => if String.eqb k k' then Some v else lookup_str k rest
  end.

(** A file system without symbolic links: [dirs] lists the directories
    with their entries, [files] the readable files with their text,
    [unreadable] the files that exist and cannot be read, [locked] the
    directories that cannot be listed. *)
Definition mkfs (dirs : list (string * list string))
  (files : list (string * string)) (unreadable locked : list string)
  : filesystem :=
  {| cwd := "/";
     exists_ := fun p =>
       match lookup_str p dirs, lookup_str p files with
       | None, None => in_list p unreadable
       | _, _ => true
       end;
     isdir := fun p =>
       match lookup_str p dirs with Some _ => true | None => false end;
     listdir := fun p =>
       if in_list p locked then Raise PermissionError
       else match lookup_str p dirs with
            | Some es => Return es
            | None => Raise OSError
            end;
     read_text := fun p => lookup_str p files;
     resolve := fun p => abspath "/" p |}.

(** [a.md] and [b.md] link to each other. *)
Definition cyclic : filesystem :=
  mkfs [("/docs", ["a.md"; "b.md"])]
       [("/docs/a.md", "See [B](b.md).");
        ("/docs/b.md", "Back to [A again](a.md).")]
       [] [].

(** [root.md] links twice to [b.md], under two labels; [b.md] links to
    [c.md]. *)
Definition twice : filesystem :=
  mkfs [("/docs", ["root.md"; "b.md"; "c.md"])]
       [("/docs/root.md", "[First](b.md) and [Second](b.md)");
        ("/docs/b.md", "see [C](c.md)");
        ("/docs/c.md", "leaf")]
       [] [].

Definition notes : filesystem :=
  mkfs [("/docs", ["a.md"; "notes.md"])]
       [("/docs/a.md", "[n](notes)"); ("/docs/notes.md", "n")] [] [].

Definition sub_index : filesystem :=
  mkfs [("/docs", ["a.md"; "Sub"]); ("/docs/Sub", ["index.mdx"])]
       [("/docs/a.md", "[s](Sub/)"); ("/docs/Sub/index.mdx", "s")] [] [].

Definition readme : filesystem :=
  mkfs [("/docs", ["a.md"; "readme.md"])]
       [("/docs/a.md", "[r](README.md)"); ("/docs/readme.md", "r")] [] [].

Definition locked_dir : filesystem :=
  mkfs [("/docs", ["a.md"; "readme.md"])]
       [("/docs/a.md", "[r](README.md)"); ("/docs/readme.md", "r")]
       [] ["/docs"].

(** [a.md] links to [secret.md], which exists and cannot be read. *)
Definition unreadable_child : filesystem :=
  mkfs [("/docs", ["a.md"; "secret.md"])]
       [("/docs/a.md", "[Secret](secret.md) [w](http://example.com/x)")]
       ["/docs/secret.md"] [].

(** A document with a frontmatter block. *)
Definition with_frontmatter (block body : string) : string :=
  "---" ++ NLs ++ block ++ NLs ++ "---" ++ NLs ++ body.

(** Files with a frontmatter title, without one, and with a falsy one. *)
Definition titles : filesystem :=
  mkfs [("/docs", ["root.md"; "titled.md"; "plain.md"; "zero.md"])]
       [("/docs/root.md", "[One](titled.md) [Two](plain.md) [Three](zero.md)");
        ("/docs/titled.md", with_frontmatter "title: Alpha" "a");
        ("/docs/plain.md", "p");
        ("/docs/zero.md", with_frontmatter "title: 0" "z")]
       [] [].

End Demo.

(** * Properties *)

(** ** Strings *)

Fixpoint all_space (s : string) : bool :=
  match s with
  | EmptyString => true
  | String c s' => is_space c && all_space s'
  end.

Lemma append_nil_r (s : string) : s ++ "" = s.
Proof. induction s as [|c s IH]; [reflexivity | cbn; now f_equal]. Qed.

Lemma append_assoc (a b c : string) : (a ++ b) ++ c = a ++ (b ++ c).
Proof. induction a as [|x a IH]; [reflexivity | cbn; now f_equal]. Qed.

Lemma append_snoc (acc : string) (c : ascii) (s : string) :
  (acc ++ String c "") ++ s = acc ++ String c s.
Proof. now rewrite append_assoc. Qed.

Lemma append_inj_l (p a b : string) : p ++ a = p ++ b -> a = b.
Proof.
  induction p as [|x p IH]; cbn; [easy|]. intros [= H]. now apply IH.
Qed.

Lemma strip_prefix_Some (p s r : string) :
  strip_prefix p s = Some r <-> s = p ++ r.
Proof.
  revert s. induction p as [|a p IH]; intros s; cbn.
  - split; [now intros [= ->] | now intros ->].
  - destruct s as [|b s]; [split; discriminate|].
    destruct (Ascii.eqb_spec a b) as [->|Hne].
    + rewrite IH. split; [now intros -> | now intros [= ->]].
    + split; [discriminate | intros [= E _]; congruence].
Qed.

(** ** The frontmatter pattern *)

Section Matchers.
Context {A : Type}.

Lemma re_lit_Some (p : string) (k : string -> option A) (s : string) (r : A) :
  re_lit p k s = Some r <-> exists rest, s = p ++ rest /\ k rest = Some r.
Proof.
  unfold re_lit. destruct (strip_prefix p s) as [rest|] eqn:E.
  - apply strip_prefix_Some in E. subst s. split.
    + intros H. now exists rest.
    + intros (rest' & Heq & H). apply append_inj_l in Heq. now subst.
  - split; [discriminate|]. intros (rest & -> & _).
    assert (strip_prefix p (p ++ rest) = Some rest) as E'
      by now apply strip_prefix_Some.
    congruence.
Qed.

Lemma re_space_star_sound (k : string -> option A) (s : string) (r : A) :
  re_space_star k s = Some r ->
  exists ws rest, s = ws ++ rest /\ all_space ws = true /\ k rest = Some r.
Proof.
  induction s as [|c s IH]; cbn.
  - intros H. now exists "", "".
  - destruct (is_space c) eqn:Hc.
    + destruct (re_space_star k s) as [r'|] eqn:E.
      * intros [= ->]. destruct (IH eq_refl) as (ws & rest & -> & Hws & Hk).
        exists (String c ws), rest. cbn. now rewrite Hc, Hws.
      * intros H. now exists "", (String c s).
    + intros H. now exists "", (String c s).
Qed.

Lemma re_space_star_complete (k : string -> option A) (ws rest : string) :
  all_space ws = true -> is_Some (k rest) ->
  is_Some (re_space_star k (ws ++ rest)).
Proof.
  intros Hws Hk. induction ws as [|c ws IH]; cbn in *.
  - destruct rest as [|c rest]; cbn; [assumption|].
    destruct (is_space c); [|assumption].
    destruct (re_space_star k rest); [eauto | assumption].
  - apply andb_prop in Hws as [Hc Hws]. rewrite Hc.
    destruct (IH Hws) as [r ->]. eauto.
Qed.

Lemma re_any_lazy_sound (k : string -> string -> option A)
  (acc s : string) (r : A) :
  re_any_lazy k acc s = Some r ->
  exists g rest, s = g ++ rest /\ k (acc ++ g) rest = Some r.
Proof.
  revert acc. induction s as [|c s IH]; intros acc; cbn.
  - destruct (k acc "") eqn:E; [|discriminate].
    intros [= ->]. exists "", "". split; [easy | now rewrite append_nil_r].
  - destruct (k acc (String c s)) eqn:E.
    + intros [= ->]. exists "", (String c s).
      split; [easy | now rewrite append_nil_r].
    + intros H. destruct (IH _ H) as (g & rest & -> & Hk).
      exists (String c g), rest. now rewrite append_snoc in Hk.
Qed.

Lemma re_any_lazy_complete (k : string -> string -> option A)
  (acc g rest : string) :
  is_Some (k (acc ++ g) rest) -> is_Some (re_any_lazy k acc (g ++ rest)).
Proof.
  revert acc. induction g as [|c g IH]; intros acc Hk.
  - rewrite append_nil_r in Hk. cbn.
    destruct rest; cbn; destruct Hk as [r ->]; eauto.
  - cbn. destruct (k acc (String c (g ++ rest))); [eauto|].
    apply IH. now rewrite append_snoc.
Qed.

Lemma re_any_greedy_eos (g1 acc s : string) :
  re_any_greedy (A := string * string)
    (fun g2 => re_eos (Some (g1, g2))) acc s = Some (g1, acc ++ s).
Proof.
  revert acc. induction s as [|c s IH]; intros acc; cbn.
  - now rewrite append_nil_r.
  - now rewrite IH, append_snoc.
Qed.

End Matchers.

(** The shape a text must have to match: the opening delimiter line, the
    metadata block, the closing delimiter line, the remainder. *)
Definition delimited (text fm_text body : string) : Prop :=
  exists ws1 ws2,
    all_space ws1 = true /\ all_space ws2 = true /\
    text = "---" ++ ws1 ++ NLs ++ fm_text ++ NLs ++ "---" ++ ws2 ++ NLs ++ body.

Lemma frontmatter_match_sound (text fm_text body : string) :
  frontmatter_match text = Some (fm_text, body) -> delimited text fm_text body.
Proof.
  unfold frontmatter_match. intros H.
  apply re_lit_Some in H as (r0 & -> & H).
  apply re_space_star_sound in H as (ws1 & r1 & -> & Hws1 & H).
  apply re_lit_Some in H as (r2 & -> & H).
  apply re_any_lazy_sound in H as (g1 & r3 & -> & H).
  apply re_lit_Some in H as (r4 & -> & H).
  apply re_space_star_sound in H as (ws2 & r5 & -> & Hws2 & H).
  apply re_lit_Some in H as (r6 & -> & H).
  rewrite re_any_greedy_eos in H. injection H as <- <-.
  exists ws1, ws2. repeat split; assumption.
Qed.

Lemma re_lit_complete {A} (p : string) (k : string -> option A)
  (rest : string) :
  is_Some (k rest) -> is_Some (re_lit p k (p ++ rest)).
Proof.
  intros Hk. unfold re_lit.
  now rewrite (proj2 (strip_prefix_Some p (p ++ rest) rest) eq_refl).
Qed.

Lemma frontmatter_match_complete (text fm_text body : string) :
  delimited text fm_text body -> is_Some (frontmatter_match text).
Proof.
  intros (ws1 & ws2 & Hws1 & Hws2 & ->). unfold frontmatter_match.
  apply re_lit_complete.
  apply re_space_star_complete; [assumption|].
  apply re_lit_complete.
  apply (re_any_lazy_complete _ "" fm_text).
  rewrite <- (append_assoc NLs "---").
  apply re_lit_complete.
  apply re_space_star_complete; [assumption|].
  apply re_lit_complete.
  rewrite re_any_greedy_eos. eauto.
Qed.

(** ** [parse_frontmatter] *)

(** C6. [parse_frontmatter] on any text: when the text matches the
    delimited-block pattern and [yaml.safe_load] raises on the metadata
    block, the result is the empty mapping with the remainder after the
    closing delimiter line as body; when the text does not match, the result
    is the empty mapping with the whole text as body; in every case the
    function returns and raises nothing.  Matching the pattern is having the
    delimited shape. *)
Theorem parse_frontmatter_never_raises (L : libs) (text : string) :
  (forall fm_text body e,
      frontmatter_match text = Some (fm_text, body) ->
      safe_load L fm_text = Raise e ->
      parse_frontmatter L text = Return (PyDict [], body)
      /\ delimited text fm_text body)
  /\ (frontmatter_match text = None ->
      parse_frontmatter L text = Return (PyDict [], text))
  /\ (exists fm body, parse_frontmatter L text = Return (fm, body))
  /\ (is_Some (frontmatter_match text) <->
      exists fm_text body, delimited text fm_text body).
Proof.
  unfold parse_frontmatter. split; [|split; [|split; [|split]]].
  - intros fm_text body e Hm He. rewrite Hm, He. split; [reflexivity|].
    now apply frontmatter_match_sound.
  - intros ->. reflexivity.
  - destruct (frontmatter_match text) as [[fm_text body]|]; [|eauto].
    destruct (safe_load L fm_text); cbn; eauto.
  - intros [[fm_text body] Hm]. exists fm_text, body.
    now apply frontmatter_match_sound.
  - intros (fm_text & body & Hd). now apply frontmatter_match_complete in Hd.
Qed.

(** The malformed block ["["] between two delimiter lines, and a text
    without frontmatter. *)
Lemma parse_frontmatter_never_raises_witness :
  parse_frontmatter Demo.L ("---" ++ NLs ++ "[" ++ NLs ++ "---" ++ NLs ++ "body")
  = Return (PyDict [], "body")
  /\ parse_frontmatter Demo.L "no frontmatter" = Return (PyDict [], "no frontmatter").
Proof.
  split.
  - apply (proj1 (parse_frontmatter_never_raises Demo.L _) "[" "body" YAMLError);
      reflexivity.
  - apply (proj1 (proj2 (parse_frontmatter_never_raises Demo.L _))); reflexivity.
Defined.

(** ** The walker: one call *)

Lemma parse_md_unfold (fuel : nat) (L : libs) (fs : filesystem)
  (path : string) (seen : seen_set) (link_text : option string) :
  parse_md (S fuel) L fs path seen link_text =
  let p := resolve fs path in
  match _read_file_text fs p with
  | None => Done None seen
  | Some text =>
      match parse_frontmatter L text with
      | Raise e => Raised e
      | Return (fm, body) =>
          match frontmatter_title fm with
          | Raise e => Raised e
          | Return fm_title =>
              let title := choose_title L fm_title link_text p in
              if decide (p ∈ seen) then
                Done (Some (Node p title (render_html L body) [])) seen
              else
                match walk_links (parse_md fuel L fs) L fs p
                        (extract_links body) [] ({[p]} ∪ seen) with
                | Done children seen' =>
                    Done (Some (Node p title (render_html L body) children))
                         seen'
                | Raised e => Raised e
                | OutOfFuel => OutOfFuel
                end
          end
      end
  end.
Proof. reflexivity. Qed.

(** What a call that returned a node went through. *)
Lemma parse_md_node_inv (fuel : nat) (L : libs) (fs : filesystem)
  (path : string) (seen seen' : seen_set) (link_text : option string)
  (n : node) :
  parse_md fuel L fs path seen link_text = Done (Some n) seen' ->
  exists fuel' text fm body fm_title,
    fuel = S fuel'
    /\ read_text fs (resolve fs path) = Some text
    /\ parse_frontmatter L text = Return (fm, body)
    /\ frontmatter_title fm = Return fm_title
    /\ node_id n = resolve fs path
    /\ node_title n = choose_title L fm_title link_text (resolve fs path)
    /\ node_content n = render_html L body
    /\ (resolve fs path ∈ seen -> node_children n = [] /\ seen' = seen)
    /\ (resolve fs path ∉ seen ->
        walk_links (parse_md fuel' L fs) L fs (resolve fs path)
          (extract_links body) [] ({[resolve fs path]} ∪ seen)
        = Done (node_children n) seen').
Proof.
  destruct fuel as [|fuel']; [discriminate|].
  rewrite parse_md_unfold. cbv zeta. unfold _read_file_text.
  destruct (read_text fs (resolve fs path)) as [text|] eqn:Hread;
    [|discriminate].
  destruct (parse_frontmatter L text) as [[fm body]|e] eqn:Hfm;
    [|discriminate].
  destruct (frontmatter_title fm) as [fm_title|e] eqn:Ht; [|discriminate].
  destruct (decide (resolve fs path ∈ seen)) as [Hin|Hnot].
  - intros [= <- <-]. exists fuel', text, fm, body, fm_title.
    repeat split; try reflexivity; try assumption; now intros.
  - destruct (walk_links _ _ _ _ _ _ _) as [children s| |] eqn:Hw;
      try discriminate.
    intros [= <- <-]. exists fuel', text, fm, body, fm_title.
    repeat split; try reflexivity; try assumption; now intros.
Qed.

(** ** Termination *)

Section Termination.
Variable L : libs.
Variable fs : filesystem.

(** The files that can be read, a finite set. *)
Variable universe : gset string.
Hypothesis universe_readable :
  forall p t, read_text fs p = Some t -> p ∈ universe.

(** A call is settled when it does not run out of fuel and leaves a
    visited set that includes the one it was given. *)
Definition settled {A} (seen : seen_set) (r : res A) : Prop :=
  r <> OutOfFuel /\ forall a seen', r = Done a seen' -> seen ⊆ seen'.

Lemma walk_links_settled
  (recur : string -> seen_set -> option string -> res (option node))
  (seen0 : seen_set) (path : string) :
  (forall p s lt, seen0 ⊆ s -> settled s (recur p s lt)) ->
  forall links children seen,
    seen0 ⊆ seen ->
    settled seen (walk_links recur L fs path links children seen).
Proof.
  intros Hrec links. induction links as [|[label target] rest IH];
    intros children seen Hsub; cbn.
  - split; [discriminate|]. now intros a s [= _ <-].
  - destruct (is_external_link L target) as [[|]|e];
      [now apply IH| |split; discriminate].
    destruct (resolve_link L fs path target) as [resolved|e];
      [|split; discriminate].
    destruct (opt_truthy resolved); [|now apply IH].
    destruct (Hrec (default "" resolved) seen (Some label) Hsub) as [Hne Hinc].
    destruct (recur (default "" resolved) seen (Some label))
      as [[child|] s| |] eqn:Hr; try (split; discriminate); try congruence.
    + specialize (Hinc _ _ eq_refl).
      destruct (IH (append children child) s) as [Hne' Hinc'];
        [set_solver|].
      split; [assumption|]. intros a s' Ha. specialize (Hinc' _ _ Ha).
      set_solver.
    + specialize (Hinc _ _ eq_refl).
      destruct (IH (append children
                      (could_not_load_node (default "" resolved) label)) s)
        as [Hne' Hinc']; [set_solver|].
      split; [assumption|]. intros a s' Ha. specialize (Hinc' _ _ Ha).
      set_solver.
Qed.

Lemma parse_md_settled (fuel : nat) :
  forall path seen lt,
    size (universe ∖ seen) < fuel ->
    settled seen (parse_md fuel L fs path seen lt).
Proof.
  induction fuel as [|fuel IH]; intros path seen lt Hsize; [lia|].
  rewrite parse_md_unfold. cbv zeta. unfold _read_file_text.
  destruct (read_text fs (resolve fs path)) as [text|] eqn:Hread.
  2:{ split; [discriminate|]. now intros a s [= _ <-]. }
  destruct (parse_frontmatter L text) as [[fm body]|e];
    [|split; discriminate].
  destruct (frontmatter_title fm) as [fm_title|e]; [|split; discriminate].
  destruct (decide (resolve fs path ∈ seen)) as [Hin|Hnot].
  { split; [discriminate|]. now intros a s [= _ <-]. }
  apply universe_readable in Hread.
  assert (Hw : settled ({[resolve fs path]} ∪ seen)
                 (walk_links (parse_md fuel L fs) L fs (resolve fs path)
                    (extract_links body) [] ({[resolve fs path]} ∪ seen))).
  { apply walk_links_settled with (seen0 := {[resolve fs path]} ∪ seen);
      [|reflexivity].
    intros p s lt' Hsub. apply IH.
    assert (universe ∖ s ⊂ universe ∖ seen) as Hlt by set_solver.
    apply subset_size in Hlt. lia. }
  destruct Hw as [Hne Hinc].
  destruct (walk_links _ _ _ _ _ _ _) as [children s| |];
    [|split; discriminate|congruence].
  split; [discriminate|]. intros a s' [= _ <-].
  specialize (Hinc _ _ eq_refl). set_solver.
Qed.

End Termination.

(** More fuel does not change the result of a call that had enough. *)
Lemma walk_links_more_fuel
  (recur recur' : string -> seen_set -> option string -> res (option node))
  (L : libs) (fs : filesystem) (path : string) :
  (forall p s lt, recur p s lt <> OutOfFuel -> recur' p s lt = recur p s lt) ->
  forall links children seen,
    walk_links recur L fs path links children seen <> OutOfFuel ->
    walk_links recur' L fs path links children seen
    = walk_links recur L fs path links children seen.
Proof.
  intros Hrec links. induction links as [|[label target] rest IH];
    intros children seen; cbn; [reflexivity|].
  destruct (is_external_link L target) as [[|]|e]; [apply IH| |reflexivity].
  destruct (resolve_link L fs path target) as [resolved|e]; [|reflexivity].
  destruct (opt_truthy resolved); [|apply IH].
  destruct (recur (default "" resolved) seen (Some label))
    as [[child|] s| |] eqn:Hr; intros Hne;
    try (rewrite Hrec, Hr by congruence); try reflexivity;
    try (now apply IH); congruence.
Qed.

Lemma parse_md_more_fuel (L : libs) (fs : filesystem) (fuel : nat) :
  forall path seen lt,
    parse_md fuel L fs path seen lt <> OutOfFuel ->
    parse_md (S fuel) L fs path seen lt = parse_md fuel L fs path seen lt.
Proof.
  induction fuel as [|fuel IH]; intros path seen lt Hne; [now cbn in Hne|].
  rewrite (parse_md_unfold (S fuel)). rewrite parse_md_unfold in Hne |- *.
  cbv zeta in *.
  destruct (_read_file_text fs (resolve fs path)) as [text|]; [|reflexivity].
  destruct (parse_frontmatter L text) as [[fm body]|e]; [|reflexivity].
  destruct (frontmatter_title fm) as [fm_title|e]; [|reflexivity].
  destruct (decide (resolve fs path ∈ seen)); [reflexivity|].
  rewrite (walk_links_more_fuel (parse_md fuel L fs) (parse_md (S fuel) L fs));
    [reflexivity|exact IH|].
  destruct (walk_links _ _ _ _ _ _ _); congruence.
Qed.

Lemma parse_md_fuel_le (L : libs) (fs : filesystem) (fuel fuel' : nat) :
  fuel <= fuel' ->
  forall path seen lt,
    parse_md fuel L fs path seen lt <> OutOfFuel ->
    parse_md fuel' L fs path seen lt = parse_md fuel L fs path seen lt.
Proof.
  induction 1 as [|fuel' Hle IH]; intros path seen lt Hne; [reflexivity|].
  rewrite parse_md_more_fuel; [now apply IH|]. now rewrite IH.
Qed.

(** C1. Whatever the link graph, cyclic or not, [parse_md] terminates: when
    the readable files form a finite set, every call with more fuel than
    there are readable files not yet visited comes to one and the same
    result, which is not an exhausted fuel.  And when the canonical path of
    the file walked is already in the visited set, the node built from the
    file is returned at once, with no children, the visited set unchanged
    and no recursive call: one unit of fuel is enough. *)
Theorem parse_md_terminates (L : libs) (fs : filesystem)
  (universe : gset string) (path : string) (seen : seen_set)
  (link_text : option string) :
  (forall p t, read_text fs p = Some t -> p ∈ universe) ->
  (exists r,
      r <> OutOfFuel
      /\ forall fuel, size (universe ∖ seen) < fuel ->
                      parse_md fuel L fs path seen link_text = r)
  /\ (resolve fs path ∈ seen ->
      forall text fm body fm_title,
        read_text fs (resolve fs path) = Some text ->
        parse_frontmatter L text = Return (fm, body) ->
        frontmatter_title fm = Return fm_title ->
        forall fuel,
          parse_md (S fuel) L fs path seen link_text
          = Done (Some (Node (resolve fs path)
                          (choose_title L fm_title link_text (resolve fs path))
                          (render_html L body) []))
                 seen).
Proof.
  intros Hfin. split.
  - exists (parse_md (S (size (universe ∖ seen))) L fs path seen link_text).
    pose proof (parse_md_settled L fs universe Hfin
                  (S (size (universe ∖ seen))) path seen link_text
                  (Nat.lt_succ_diag_r _)) as [Hne _].
    split; [assumption|]. intros fuel Hlt.
    apply parse_md_fuel_le; [lia | assumption].
  - intros Hin text fm body fm_title Hread Hfm Ht fuel.
    rewrite parse_md_unfold. cbv zeta. unfold _read_file_text.
    rewrite Hread, Hfm, Ht. now rewrite decide_True.
Qed.

Lemma cyclic_universe (p t : string) :
  read_text Demo.cyclic p = Some t ->
  p ∈ ({["/docs/a.md"; "/docs/b.md"]} : gset string).
Proof.
  cbn. destruct (String.eqb_spec p "/docs/a.md") as [->|_]; [set_solver|].
  destruct (String.eqb_spec p "/docs/b.md") as [->|_]; [set_solver|].
  discriminate.
Qed.

(** The two files that link to each other: the walk from [a.md] ends, and
    the second visit of [a.md] gives a node without children. *)
Lemma parse_md_terminates_witness :
  (exists r, r <> OutOfFuel
             /\ parse_md 3 Demo.L Demo.cyclic "/docs/a.md" ∅ None = r
             /\ parse_md 9 Demo.L Demo.cyclic "/docs/a.md" ∅ None = r)
  /\ parse_md 1 Demo.L Demo.cyclic "/docs/a.md"
       {["/docs/a.md"; "/docs/b.md"]} (Some "A again")
     = Done (Some (Node "/docs/a.md" "A again" "<p>See [B](b.md).</p>" []))
            {["/docs/a.md"; "/docs/b.md"]}.
Proof.
  split.
  - destruct (parse_md_terminates Demo.L Demo.cyclic
                {["/docs/a.md"; "/docs/b.md"]} "/docs/a.md" ∅ None
                cyclic_universe) as [(r & Hne & Hr) _].
    exists r. split; [assumption|].
    split; apply Hr; vm_compute; lia.
  - assert (Hin : resolve Demo.cyclic "/docs/a.md"
                  ∈ ({["/docs/a.md"; "/docs/b.md"]} : gset string))
      by (vm_compute; set_solver).
    exact (proj2 (parse_md_terminates Demo.L Demo.cyclic
                    {["/docs/a.md"; "/docs/b.md"]} "/docs/a.md"
                    {["/docs/a.md"; "/docs/b.md"]} (Some "A again")
                    cyclic_universe)
             Hin "See [B](b.md)." (PyDict []) "See [B](b.md)." PyNone
             eq_refl eq_refl eq_refl 0).
Defined.

(** ** Titles *)

(** [LINK_RE] needs one character at least in a label and in a target. *)
Lemma link_at_nonempty (s label target rest : string) :
  link_at s = Some (label, target, rest) ->
  nonempty label = true /\ nonempty target = true.
Proof.
  unfold link_at. destruct s as [|c s]; [discriminate|].
  destruct (Ascii.eqb_spec c "[") as [->|Hc].
  2:{ destruct c as [[] [] [] [] [] [] [] []]; try discriminate.
      now contradiction Hc. }
  destruct (take_until "]" s) as [l r1].
  destruct (nonempty l) eqn:Hl; [|discriminate].
  destruct (strip_prefix "](" r1) as [s2|]; [|discriminate].
  destruct (take_until ")" s2) as [t r2].
  destruct (nonempty t) eqn:Ht; [|discriminate].
  destruct r2 as [|c2 r2]; [discriminate|].
  destruct c2 as [[] [] [] [] [] [] [] []]; try discriminate.
  now intros [= <- <- <-].
Qed.

Lemma finditer_nonempty (fuel : nat) (s label target : string) :
  In (label, target) (finditer fuel s) ->
  nonempty label = true /\ nonempty target = true.
Proof.
  revert s. induction fuel as [|fuel IH]; intros s; cbn; [easy|].
  destruct s as [|c s]; [easy|].
  destruct (link_at (String c s)) as [[[l t] rest]|] eqn:E; [|apply IH].
  intros [[= <- <-]|Hin]; [now apply link_at_nonempty in E | now apply IH in Hin].
Qed.

Lemma frontmatter_title_dict (items : list (pyval * pyval)) (kv : pyval * pyval) :
  List.find (is_key "title") items = Some kv ->
  frontmatter_title (PyDict items) = Return (snd kv).
Proof.
  intros Hf. unfold frontmatter_title, py_or.
  destruct items as [|x items]; [discriminate|]. cbn [truthy py_get].
  now rewrite Hf.
Qed.

(** C2. The title of the node [parse_md] returns follows the precedence:
    a truthy [title] field of the file's frontmatter is the title (as a
    string; the field itself when it is a string) whatever the inbound
    link label is; failing that, a non-empty inbound label is the title;
    failing both, the stem of the file name is.  Every label the walker
    passes on is non-empty. *)
Theorem title_precedence (L : libs) (fs : filesystem) (fuel : nat)
  (path : string) (seen seen' : seen_set) (link_text : option string)
  (n : node) :
  parse_md fuel L fs path seen link_text = Done (Some n) seen' ->
  exists text fm body fm_title,
    read_text fs (resolve fs path) = Some text
    /\ parse_frontmatter L text = Return (fm, body)
    /\ frontmatter_title fm = Return fm_title
    /\ (truthy fm_title = true ->
        node_title n = py_str L fm_title
        /\ forall s, fm_title = PyStr s -> node_title n = s)
    /\ (truthy fm_title = false ->
        forall l, link_text = Some l -> nonempty l = true -> node_title n = l)
    /\ (truthy fm_title = false ->
        opt_truthy link_text = false -> node_title n = stem (resolve fs path))
    /\ (forall label target,
          In (label, target) (extract_links body) -> nonempty label = true).
Proof.
  intros H. apply parse_md_node_inv in H
    as (fuel' & text & fm & body & fm_title & _ & Hread & Hfm & Ht & _
        & Htitle & _).
  exists text, fm, body, fm_title. rewrite Htitle. unfold choose_title.
  repeat split; try assumption.
  - now rewrite H.
  - intros s ->. now rewrite H.
  - intros Hf l -> Hl. now rewrite Hf, Hl.
  - intros Hf Hl. rewrite Hf. destruct link_text as [l|]; [|reflexivity].
    cbn in Hl. now rewrite Hl.
  - intros label target Hin. now apply finditer_nonempty in Hin.
Qed.

Definition title_of (r : res (option node)) : option string :=
  match r with
  | Done (Some n) _ => Some (node_title n)
  | _ => None
  end.

(** A titled file reached under the label [One], an untitled one reached
    under [Two], and the untitled root. *)
Lemma title_precedence_witness :
  title_of (parse_md 1 Demo.L Demo.titles "/docs/titled.md" ∅ (Some "One"))
  = Some "Alpha"
  /\ title_of (parse_md 1 Demo.L Demo.titles "/docs/plain.md" ∅ (Some "Two"))
     = Some "Two"
  /\ title_of (parse_md 1 Demo.L Demo.titles "/docs/plain.md" ∅ None)
     = Some "plain".
Proof.
  split; [|split].
  - destruct (parse_md 1 Demo.L Demo.titles "/docs/titled.md" ∅ (Some "One"))
      as [[n|] s| |] eqn:E; try (vm_compute in E; discriminate).
    destruct (title_precedence _ _ _ _ _ _ _ _ E)
      as (text & fm & body & v & Hread & Hfm & Ht & H1 & _).
    injection Hread as <-. injection Hfm as <- <-. injection Ht as <-.
    cbn. f_equal. now apply (proj2 (H1 eq_refl) "Alpha").
  - destruct (parse_md 1 Demo.L Demo.titles "/docs/plain.md" ∅ (Some "Two"))
      as [[n|] s| |] eqn:E; try (vm_compute in E; discriminate).
    destruct (title_precedence _ _ _ _ _ _ _ _ E)
      as (text & fm & body & v & Hread & Hfm & Ht & _ & H2 & _).
    injection Hread as <-. injection Hfm as <- <-. injection Ht as <-.
    cbn. f_equal. now apply H2.
  - destruct (parse_md 1 Demo.L Demo.titles "/docs/plain.md" ∅ None)
      as [[n|] s| |] eqn:E; try (vm_compute in E; discriminate).
    destruct (title_precedence _ _ _ _ _ _ _ _ E)
      as (text & fm & body & v & Hread & Hfm & Ht & _ & _ & H3 & _).
    injection Hread as <-. injection Hfm as <- <-. injection Ht as <-.
    cbn. f_equal. now rewrite H3.
Defined.

(** C10. A [title] key whose value is falsy counts as no title: the node's
    title is the non-empty inbound label or else the stem of the file name.
    The empty string, [0], [False] and [None] are such values: the test is
    on the truth of the value, not on the presence of the key. *)
Theorem falsy_title_is_absent (L : libs) (fs : filesystem) (fuel : nat)
  (path : string) (seen seen' : seen_set) (link_text : option string)
  (n : node) (text body : string) (items : list (pyval * pyval))
  (key value : pyval) :
  parse_md fuel L fs path seen link_text = Done (Some n) seen' ->
  read_text fs (resolve fs path) = Some text ->
  parse_frontmatter L text = Return (PyDict items, body) ->
  List.find (is_key "title") items = Some (key, value) ->
  truthy value = false ->
  node_title n = (if opt_truthy link_text then default "" link_text
                  else stem (resolve fs path))
  /\ truthy (PyStr "") = false /\ truthy (PyInt 0) = false
  /\ truthy (PyBool false) = false /\ truthy PyNone = false.
Proof.
  intros H Hread Hfm Hfind Hfalsy.
  apply parse_md_node_inv in H
    as (fuel' & text' & fm & body' & fm_title & _ & Hread' & Hfm' & Ht & _
        & Htitle & _).
  rewrite Hread in Hread'. injection Hread' as <-.
  rewrite Hfm in Hfm'. injection Hfm' as <- <-.
  rewrite (frontmatter_title_dict _ _ Hfind) in Ht. injection Ht as <-.
  cbn [snd] in Htitle. rewrite Htitle. unfold choose_title.
  rewrite Hfalsy. repeat split.
  destruct link_text as [l|]; [|reflexivity]. cbn.
  now destruct (nonempty l).
Qed.

(** The file whose frontmatter says [title: 0], reached under [Three]. *)
Lemma falsy_title_is_absent_witness :
  title_of (parse_md 1 Demo.L Demo.titles "/docs/zero.md" ∅ (Some "Three"))
  = Some "Three".
Proof.
  destruct (parse_md 1 Demo.L Demo.titles "/docs/zero.md" ∅ (Some "Three"))
    as [[n|] s| |] eqn:E; try (vm_compute in E; discriminate).
  cbn. f_equal.
  exact (proj1 (falsy_title_is_absent Demo.L Demo.titles 1 "/docs/zero.md"
                  ∅ s (Some "Three") n (Demo.with_frontmatter "title: 0" "z")
                  "z" [(PyStr "title", PyInt 0)] (PyStr "title") (PyInt 0)
                  E eq_refl eq_refl eq_refl eq_refl)).
Defined.

(** ** A file visited twice *)

(** C3 as a statement about two calls of the walker in one traversal: the
    first expands the file, the second finds it visited. *)
Definition first_seen_title_claim : Prop :=
  forall (L : libs) (fs : filesystem) (fuel1 fuel2 : nat) (path : string)
         (seen1 seen1' seen2 seen2' : seen_set) (label1 label2 : string)
         (n1 n2 : node),
    resolve fs path ∉ seen1 ->
    parse_md fuel1 L fs path seen1 (Some label1) = Done (Some n1) seen1' ->
    seen1' ⊆ seen2 ->
    parse_md fuel2 L fs path seen2 (Some label2) = Done (Some n2) seen2' ->
    node_title n2 = node_title n1.

(** C3, as stated, fails: [root.md] links to [b.md] as [First] and then as
    [Second]; [b.md] has no frontmatter title.  The first node is expanded
    and titled [First], the second is the truncated one and is titled
    [Second]. *)
Lemma revisit_title_counterexample :
  (exists seen',
      parse_md 3 Demo.L Demo.twice "/docs/root.md" ∅ None
      = Done (Some (Node "/docs/root.md" "root"
                      "<p>[First](b.md) and [Second](b.md)</p>"
                      [Node "/docs/b.md" "First" "<p>see [C](c.md)</p>"
                         [Node "/docs/c.md" "C" "<p>leaf</p>" []];
                       Node "/docs/b.md" "Second" "<p>see [C](c.md)</p>" []]))
             seen')
  /\ ~ first_seen_title_claim.
Proof.
  split; [eexists; vm_compute; reflexivity|].
  intros Hclaim.
  assert (E1 : parse_md 2 Demo.L Demo.twice "/docs/b.md"
                 {["/docs/root.md"]} (Some "First")
               = Done (Some (Node "/docs/b.md" "First" "<p>see [C](c.md)</p>"
                               [Node "/docs/c.md" "C" "<p>leaf</p>" []]))
                      {["/docs/root.md"; "/docs/b.md"; "/docs/c.md"]})
    by (vm_compute; reflexivity).
  assert (E2 : parse_md 1 Demo.L Demo.twice "/docs/b.md"
                 {["/docs/root.md"; "/docs/b.md"; "/docs/c.md"]}
                 (Some "Second")
               = Done (Some (Node "/docs/b.md" "Second" "<p>see [C](c.md)</p>"
                               []))
                      {["/docs/root.md"; "/docs/b.md"; "/docs/c.md"]})
    by (vm_compute; reflexivity).
  assert (Hnot : resolve Demo.twice "/docs/b.md"
                   ∉ ({["/docs/root.md"]} : gset string)).
  { intros Hin. apply elem_of_singleton in Hin. vm_compute in Hin.
    discriminate. }
  pose proof (Hclaim Demo.L Demo.twice 2 1 "/docs/b.md" _ _ _ _
                "First" "Second" _ _ Hnot E1 (reflexivity _) E2) as Heq.
  discriminate Heq.
Qed.

(** C3, amended.  Two calls on the same file, whatever their labels and
    visited sets, give nodes with the same id; with a truthy frontmatter
    title both nodes carry it; without one, the title of each call is its
    own non-empty inbound label, so the truncated revisit shows the current
    label; and the node of a call that finds the file visited has no
    children. *)
Theorem revisit_title (L : libs) (fs : filesystem) (fuel1 fuel2 : nat)
  (path1 path2 : string) (seen1 seen1' seen2 seen2' : seen_set)
  (label1 label2 : option string) (n1 n2 : node) :
  resolve fs path1 = resolve fs path2 ->
  parse_md fuel1 L fs path1 seen1 label1 = Done (Some n1) seen1' ->
  parse_md fuel2 L fs path2 seen2 label2 = Done (Some n2) seen2' ->
  node_id n2 = node_id n1
  /\ (resolve fs path2 ∈ seen2 -> node_children n2 = [])
  /\ exists text fm body fm_title,
      read_text fs (resolve fs path2) = Some text
      /\ parse_frontmatter L text = Return (fm, body)
      /\ frontmatter_title fm = Return fm_title
      /\ (truthy fm_title = true -> node_title n2 = node_title n1)
      /\ (truthy fm_title = false ->
          forall l, label2 = Some l -> nonempty l = true -> node_title n2 = l).
Proof.
  intros Hp H1 H2.
  apply parse_md_node_inv in H1
    as (f1 & text1 & fm1 & body1 & t1 & _ & Hread1 & Hfm1 & Ht1 & Hid1
        & Htitle1 & _).
  apply parse_md_node_inv in H2
    as (f2 & text2 & fm2 & body2 & t2 & _ & Hread2 & Hfm2 & Ht2 & Hid2
        & Htitle2 & _ & Hseen & _).
  rewrite Hp in Hread1. rewrite Hread2 in Hread1. injection Hread1 as <-.
  rewrite Hfm2 in Hfm1. injection Hfm1 as <- <-.
  rewrite Ht2 in Ht1. injection Ht1 as <-.
  split; [congruence|]. split; [now intros Hin; apply Hseen|].
  exists text2, fm2, body2, t2. repeat split; try assumption.
  - intros Hv. rewrite Htitle1, Htitle2. unfold choose_title. now rewrite Hv.
  - intros Hv l -> Hl. rewrite Htitle2. unfold choose_title.
    now rewrite Hv, Hl.
Qed.

(** [b.md] of the counterexample, first under [First], then, visited,
    under [Second]. *)
Lemma revisit_title_witness :
  title_of (parse_md 1 Demo.L Demo.twice "/docs/b.md"
              {["/docs/root.md"; "/docs/b.md"]} (Some "Second"))
  = Some "Second".
Proof.
  assert (E1 : parse_md 2 Demo.L Demo.twice "/docs/b.md"
                 {["/docs/root.md"]} (Some "First")
               = Done (Some (Node "/docs/b.md" "First" "<p>see [C](c.md)</p>"
                               [Node "/docs/c.md" "C" "<p>leaf</p>" []]))
                      {["/docs/root.md"; "/docs/b.md"; "/docs/c.md"]})
    by (vm_compute; reflexivity).
  assert (E2 : parse_md 1 Demo.L Demo.twice "/docs/b.md"
                 {["/docs/root.md"; "/docs/b.md"]} (Some "Second")
               = Done (Some (Node "/docs/b.md" "Second" "<p>see [C](c.md)</p>"
                               []))
                      {["/docs/root.md"; "/docs/b.md"]})
    by (vm_compute; reflexivity).
  destruct (revisit_title Demo.L Demo.twice 2 1 "/docs/b.md" "/docs/b.md"
              _ _ _ _ _ _ _ _ eq_refl E1 E2)
    as (_ & _ & text & fm & body & v & Hread & Hfm & Ht & _ & Hlabel).
  vm_compute in Hread. injection Hread as <-.
  vm_compute in Hfm. injection Hfm as <- <-.
  vm_compute in Ht. injection Ht as <-.
  rewrite E2. cbn [title_of]. apply (f_equal Some).
  exact (Hlabel eq_refl "Second" eq_refl eq_refl).
Defined.

(** ** Files that cannot be read, external links *)



(** C5. A link target that [urlparse] splits into a non-empty scheme and a
    non-empty network location is external: [resolve_link] answers [None]
    on every file system and from every base file, [is_external_link]
    answers [True], and the loop of the walker appends the external leaf
    and goes on without a look at the file system.  A target with a scheme
    and no network location is not external. *)
Theorem external_link_classification (L : libs) (link : string) (p : url) :
  urlparse L link = Return p ->
  nonempty (scheme p) = true ->
  (nonempty (netloc p) = true ->
   (forall fs base_file, resolve_link L fs base_file link = Return None)
   /\ is_external_link L link = Return true
   /\ forall recur fs path label rest children seen,
       walk_links recur L fs path ((label, link) :: rest) children seen
       = walk_links recur L fs path rest
           (children
              ++ [Node link (if nonempty label then label else link)
                    ("<i>External link: " ++ link ++ "</i>") []])
           seen)
  /\ (nonempty (netloc p) = false -> is_external_link L link = Return false).
Proof.
  intros Hp Hs. split; intros Hn.
  - split; [|split].
    + intros fs base_file. unfold resolve_link. rewrite Hp. cbn.
      now rewrite Hs, Hn.
    + unfold is_external_link. rewrite Hp. cbn. now rewrite Hs, Hn.
    + intros. cbn [walk_links]. unfold is_external_link. rewrite Hp. cbn.
      now rewrite Hs, Hn.
  - unfold is_external_link. rewrite Hp. cbn. now rewrite Hs, Hn.
Qed.

(** The page [http://example.com/x] and the address [mailto:a@b]. *)
Lemma external_link_classification_witness :
  (forall fs base_file,
      resolve_link Demo.L fs base_file "http://example.com/x" = Return None)
  /\ is_external_link Demo.L "http://example.com/x" = Return true
  /\ is_external_link Demo.L "mailto:a@b" = Return false.
Proof.
  destruct (external_link_classification Demo.L "http://example.com/x"
              (Url "http" "example.com" "/x") eq_refl eq_refl)
    as [Hext _].
  destruct (Hext eq_refl) as (Hres & Hyes & _).
  destruct (external_link_classification Demo.L "mailto:a@b"
              (Url "mailto" "" "a@b") eq_refl eq_refl)
    as [_ Hno].
  split; [exact Hres|]. split; [exact Hyes | exact (Hno eq_refl)].
Defined.

(** ** The link resolver *)

(** The candidate list in the words of the specification. *)
Definition candidates_in_order (fs : filesystem) (raw_abs : string)
  : list string :=
  [raw_abs]
  ++ (if nonempty (snd (splitext raw_abs)) then []
      else [raw_abs ++ ".md"; raw_abs ++ ".markdown"; raw_abs ++ ".mdx"])
  ++ (if isdir fs raw_abs || endswith_char raw_abs SEP
      then [join raw_abs "index.md"; join raw_abs "index.markdown";
            join raw_abs "index.mdx"]
      else []).

Lemma candidates_order (fs : filesystem) (raw_abs : string) :
  candidates fs raw_abs = candidates_in_order fs raw_abs.
Proof.
  unfold candidates, candidates_in_order, append.
  destruct (nonempty (snd (splitext raw_abs)));
    destruct (isdir fs raw_abs || endswith_char raw_abs SEP); reflexivity.
Qed.

(** A link that is not external and has a path is resolved by the loop
    over the candidates of its absolute path. *)
Lemma resolve_link_local (L : libs) (fs : filesystem)
  (base_file link : string) (p : url) :
  urlparse L link = Return p ->
  nonempty (scheme p) && nonempty (netloc p) = false ->
  nonempty (strip (unquote L (url_path p))) = true ->
  resolve_link L fs base_file link
  = first_hit fs
      (candidates fs
         (abspath (cwd fs)
            (join (dirname base_file) (strip (unquote L (url_path p)))))).
Proof.
  intros Hp Hext Hne. unfold resolve_link. rewrite Hp. cbn [exc_bind].
  now rewrite Hext, Hne.
Qed.

(** The loop returns the hit of the first candidate that has one. *)
Lemma first_hit_Some (fs : filesystem) (cs : list string) (r : string) :
  first_hit fs cs = Return (Some r) <->
  exists pre c post,
    cs = (pre ++ c :: post)%list
    /\ Forall (fun c' => candidate_hit fs c' = Return None) pre
    /\ candidate_hit fs c = Return (Some r).
Proof.
  induction cs as [|c cs IH]; cbn [first_hit].
  - split; [discriminate|]. intros (pre & c & post & Heq & _).
    now destruct pre.
  - destruct (candidate_hit fs c) as [[r'|]|e] eqn:Hc; cbn [exc_bind].
    + split.
      * intros [= ->]. exists [], c, cs. now repeat split.
      * intros (pre & c' & post & Heq & Hpre & Hc').
        destruct pre as [|x pre]; cbn in Heq; injection Heq as <- ->.
        -- congruence.
        -- apply Forall_cons in Hpre as [Hx _]. congruence.
    + rewrite IH. split.
      * intros (pre & c' & post & -> & Hpre & Hc').
        exists (c :: pre), c', post. repeat split; [|assumption].
        now apply Forall_cons.
      * intros (pre & c' & post & Heq & Hpre & Hc').
        destruct pre as [|x pre]; cbn in Heq; injection Heq as <- ->.
        -- congruence.
        -- apply Forall_cons in Hpre as [_ Hpre]. now exists pre, c', post.
    + split; [discriminate|].
      intros (pre & c' & post & Heq & Hpre & Hc').
      destruct pre as [|x pre]; cbn in Heq; injection Heq as <- ->.
      * congruence.
      * apply Forall_cons in Hpre as [Hx _]. congruence.
Qed.

Lemma in_list_In (s : string) (l : list string) :
  in_list s l = true <-> In s l.
Proof.
  unfold in_list. rewrite existsb_exists. split.
  - intros (x & Hx & E). apply String.eqb_eq in E. now subst.
  - intros Hin. exists s. split; [assumption | apply String.eqb_refl].
Qed.

(** A candidate has a hit when the existence test finds a path for it and
    the extension of that path, in lower case, is one of [MD_EXTS]. *)
Lemma candidate_hit_Some (fs : filesystem) (c r : string) :
  candidate_hit fs c = Return (Some r) <->
  exists hit,
    _case_insensitive_existing fs c = Return (Some hit)
    /\ nonempty hit = true
    /\ In (lower (snd (splitext hit))) MD_EXTS
    /\ r = abspath (cwd fs) hit.
Proof.
  unfold candidate_hit.
  destruct (_case_insensitive_existing fs c) as [[hit|]|e];
    cbn [exc_bind opt_truthy].
  - change (default "" (Some hit)) with hit.
    destruct (nonempty hit) eqn:Hne; cbn [andb].
    + destruct (in_list (lower (snd (splitext hit))) MD_EXTS) eqn:Hin.
      * apply in_list_In in Hin. split.
        -- intros [= <-]. now exists hit.
        -- now intros (h & [= <-] & _ & _ & ->).
      * split; [discriminate|]. intros (h & [= <-] & _ & Hin' & _).
        apply in_list_In in Hin'. congruence.
    + split; [discriminate|]. intros (h & [= <-] & Hne' & _). congruence.
  - split; [discriminate|]. intros (h & Heq & _). discriminate.
  - split; [discriminate|]. intros (h & Heq & _). discriminate.
Qed.

(** The existence test: the path itself when it exists; otherwise the first
    entry of its directory that has the same lower-case name and exists. *)
Definition sibling_match (fs : filesystem) (d b : string) (entry : string)
  : bool :=
  String.eqb (lower entry) (lower b) && exists_ fs (join d entry).

Lemma first_entry_match_find (fs : filesystem) (d b : string)
  (entries : list string) :
  first_entry_match fs d b entries
  = option_map (fun entry => abspath (cwd fs) (join d entry))
      (List.find (sibling_match fs d b) entries).
Proof.
  induction entries as [|e entries IH]; cbn; [reflexivity|].
  unfold sibling_match at 1.
  destruct (String.eqb (lower e) (lower b)); cbn; [|exact IH].
  destruct (exists_ fs (join d e)); cbn; [reflexivity | exact IH].
Qed.

(** *** Names that differ by case only *)

Definition all_ascii : list ascii := map ascii_of_nat (seq 0 256).

Lemma in_all_ascii (c : ascii) : In c all_ascii.
Proof.
  unfold all_ascii. rewrite <- (ascii_nat_embedding c).
  apply in_map, in_seq. pose proof (nat_ascii_bounded c). lia.
Qed.

(** The characters that [lower_char] sends to [d]. *)
Definition lower_preimage (d : ascii) : list ascii :=
  List.filter (fun c => Ascii.eqb (lower_char c) d) all_ascii.

(** The strings that [lower] sends to [t]. *)
Fixpoint case_variants (t : string) : list string :=
  match t with
  | EmptyString => [EmptyString]
  | String d t' =>
      flat_map (fun c => map (String c) (case_variants t')) (lower_preimage d)
  end.

Lemma lower_case_variants (e t : string) :
  lower e = t -> In e (case_variants t).
Proof.
  revert e. induction t as [|d t IH]; intros [|c e];
    cbn [lower case_variants]; try discriminate.
  - now left.
  - intros [= Hc He]. apply in_flat_map. exists c. split.
    + apply filter_In. split; [apply in_all_ascii | now apply Ascii.eqb_eq].
    + apply in_map. now apply IH.
Qed.

(** A property checked on every case variant of [b] holds of whatever the
    directory loop returns for [b]. *)
Lemma first_entry_match_variants (fs : filesystem) (d b : string)
  (entries : list string) (check : string -> bool) (r : string) :
  forallb (fun e => check (abspath (cwd fs) (join d e)))
    (case_variants (lower b)) = true ->
  first_entry_match fs d b entries = Some r ->
  check r = true.
Proof.
  intros Hall. rewrite first_entry_match_find.
  destruct (List.find _ entries) as [e|] eqn:Hf; [|discriminate].
  intros [= <-]. apply find_some in Hf as [_ Hm].
  unfold sibling_match in Hm. apply andb_prop in Hm as [Hm _].
  apply String.eqb_eq, lower_case_variants in Hm.
  rewrite forallb_forall in Hall. now apply Hall.
Qed.

(** A file system in which listing a directory raises nothing but
    [PermissionError]. *)
Definition listing_permission_only (fs : filesystem) : Prop :=
  forall d e,
    isdir fs d = true -> listdir fs d = Raise e -> e = PermissionError.

(** A candidate whose name has no markdown extension in any case variant
    has no hit. *)
Lemma candidate_hit_no_ext (fs : filesystem) (c : string) :
  listing_permission_only fs ->
  in_list (lower (snd (splitext (abspath (cwd fs) c)))) MD_EXTS = false ->
  forallb
    (fun e =>
       negb (in_list
               (lower (snd (splitext (abspath (cwd fs) (join (dirname c) e)))))
               MD_EXTS))
    (case_variants (lower (basename c))) = true ->
  candidate_hit fs c = Return None.
Proof.
  intros Hperm Hself Hvar. unfold candidate_hit, _case_insensitive_existing.
  destruct (exists_ fs c).
  { cbn [exc_bind opt_truthy].
    change (default "" (Some (abspath (cwd fs) c))) with (abspath (cwd fs) c).
    now rewrite Hself, andb_false_r. }
  destruct (isdir fs (dirname c)) eqn:Hd; [|reflexivity]. cbn [negb].
  destruct (listdir fs (dirname c)) as [entries|e] eqn:Hl.
  - cbn [exc_bind except_PermissionError].
    destruct (first_entry_match fs (dirname c) (basename c) entries)
      as [r|] eqn:Hm; [|reflexivity].
    apply (first_entry_match_variants fs _ _ _
             (fun hit => negb (in_list (lower (snd (splitext hit))) MD_EXTS)))
      in Hm.
    + cbn [opt_truthy]. change (default "" (Some r)) with r.
      apply negb_true_iff in Hm. now rewrite Hm, andb_false_r.
    + exact Hvar.
  - apply (Hperm _ _ Hd) in Hl as ->. reflexivity.
Qed.

(** A candidate that exists and whose extension is a markdown one is its
    own hit. *)
Lemma candidate_hit_exact (fs : filesystem) (c : string) :
  exists_ fs c = true ->
  nonempty (abspath (cwd fs) c) = true ->
  in_list (lower (snd (splitext (abspath (cwd fs) c)))) MD_EXTS = true ->
  candidate_hit fs c = Return (Some (abspath (cwd fs) (abspath (cwd fs) c))).
Proof.
  intros He Hne Hext. unfold candidate_hit, _case_insensitive_existing.
  rewrite He. cbn [exc_bind opt_truthy].
  change (default "" (Some (abspath (cwd fs) c))) with (abspath (cwd fs) c).
  now rewrite Hne, Hext.
Qed.

Lemma find_sibling_first (fs : filesystem) (d b : string)
  (entries : list string) (x : string) :
  List.find (fun e => String.eqb (lower e) (lower b)) entries = Some x ->
  exists_ fs (join d x) = true ->
  List.find (sibling_match fs d b) entries = Some x.
Proof.
  intros Hf Hx. induction entries as [|e entries IH]; [discriminate|].
  cbn in Hf |- *. unfold sibling_match at 1.
  destruct (String.eqb (lower e) (lower b)); cbn.
  - injection Hf as ->. now rewrite Hx.
  - now apply IH.
Qed.

(** C4. For a link that is not external and has a path, [resolve_link]
    tests the candidates in this order: the absolute path itself; when it
    has no extension, the path followed by [.md], [.markdown], [.mdx]; when
    it is a directory or ends with the separator, [index.md],
    [index.markdown], [index.mdx] inside it.  It returns the first candidate
    for which the existence test gives a path with one of the three
    extensions.  From [/docs/a.md], [notes] resolves to [/docs/notes.md] as
    soon as that file exists, and [Sub/] resolves to [/docs/Sub/index.mdx]
    when that is the only file of [/docs/Sub]. *)
Theorem resolve_link_candidate_order (L : libs) (fs : filesystem) :
  (forall base_file link p,
      urlparse L link = Return p ->
      nonempty (scheme p) && nonempty (netloc p) = false ->
      nonempty (strip (unquote L (url_path p))) = true ->
      let raw_abs :=
        abspath (cwd fs)
          (join (dirname base_file) (strip (unquote L (url_path p)))) in
      candidates fs raw_abs
      = ([raw_abs]
         ++ (if nonempty (snd (splitext raw_abs)) then []
             else [raw_abs ++ ".md"; raw_abs ++ ".markdown";
                   raw_abs ++ ".mdx"]%string)
         ++ (if isdir fs raw_abs || endswith_char raw_abs SEP
             then [join raw_abs "index.md"; join raw_abs "index.markdown";
                   join raw_abs "index.mdx"]
             else []))%list
      /\ forall r,
          resolve_link L fs base_file link = Return (Some r) <->
          exists pre c post hit,
            candidates fs raw_abs = (pre ++ c :: post)%list
            /\ Forall (fun c' => candidate_hit fs c' = Return None) pre
            /\ _case_insensitive_existing fs c = Return (Some hit)
            /\ nonempty hit = true
            /\ In (lower (snd (splitext hit))) MD_EXTS
            /\ r = abspath (cwd fs) hit)
  /\ (urlparse L "notes" = Return (Url "" "" "notes") ->
      unquote L "notes" = "notes" ->
      listing_permission_only fs ->
      exists_ fs "/docs/notes.md" = true ->
      resolve_link L fs "/docs/a.md" "notes" = Return (Some "/docs/notes.md"))
  /\ (urlparse L "Sub/" = Return (Url "" "" "Sub/") ->
      unquote L "Sub/" = "Sub/" ->
      resolve_link L Demo.sub_index "/docs/a.md" "Sub/"
      = Return (Some "/docs/Sub/index.mdx")).
Proof.
  split; [|split].
  - intros base_file link p Hp Hext Hne raw_abs.
    split; [apply candidates_order|]. intros r.
    rewrite (resolve_link_local L fs base_file link p Hp Hext Hne).
    fold raw_abs. rewrite first_hit_Some. split.
    + intros (pre & c & post & Hcs & Hpre & Hc).
      apply candidate_hit_Some in Hc as (hit & H1 & H2 & H3 & H4).
      now exists pre, c, post, hit.
    + intros (pre & c & post & hit & Hcs & Hpre & H1 & H2 & H3 & H4).
      exists pre, c, post. repeat split; try assumption.
      apply candidate_hit_Some. now exists hit.
  - intros Hp Hunq Hperm Hex.
    rewrite (resolve_link_local L fs _ _ _ Hp);
      [|reflexivity|cbn [url_path]; now rewrite Hunq].
    cbn [url_path]. rewrite Hunq, candidates_order.
    replace (abspath (cwd fs) (join (dirname "/docs/a.md") (strip "notes")))
      with "/docs/notes" by (vm_compute; reflexivity).
    unfold candidates_in_order.
    replace (nonempty (snd (splitext "/docs/notes"))) with false
      by (vm_compute; reflexivity).
    cbn [app first_hit].
    rewrite candidate_hit_no_ext;
      [|assumption|vm_compute; reflexivity|vm_compute; reflexivity].
    cbn [exc_bind].
    replace ("/docs/notes" ++ ".md") with "/docs/notes.md" by reflexivity.
    rewrite candidate_hit_exact;
      [|assumption|vm_compute; reflexivity|vm_compute; reflexivity].
    cbn [exc_bind]. vm_compute. reflexivity.
  - intros Hp Hunq.
    rewrite (resolve_link_local L _ _ _ _ Hp);
      [|reflexivity|cbn [url_path]; now rewrite Hunq].
    cbn [url_path]. rewrite Hunq. vm_compute. reflexivity.
Qed.

(** The two examples in the small world. *)
Lemma resolve_link_candidate_order_witness :
  resolve_link Demo.L Demo.notes "/docs/a.md" "notes"
  = Return (Some "/docs/notes.md")
  /\ resolve_link Demo.L Demo.sub_index "/docs/a.md" "Sub/"
     = Return (Some "/docs/Sub/index.mdx")
  /\ candidates Demo.sub_index "/docs/Sub"
     = ["/docs/Sub"; "/docs/Sub.md"; "/docs/Sub.markdown"; "/docs/Sub.mdx";
        "/docs/Sub/index.md"; "/docs/Sub/index.markdown";
        "/docs/Sub/index.mdx"].
Proof.
  split; [|split].
  - apply (proj1 (proj2 (resolve_link_candidate_order Demo.L Demo.notes)));
      try reflexivity.
    intros d e. unfold Demo.notes, Demo.mkfs. cbn [isdir listdir in_list existsb].
    destruct (Demo.lookup_str d _); discriminate.
  - apply (proj2 (proj2 (resolve_link_candidate_order Demo.L Demo.notes)));
      reflexivity.
  - exact (proj1 (proj1 (resolve_link_candidate_order Demo.L Demo.sub_index)
                    "/docs/a.md" "Sub/" (Url "" "" "Sub/")
                    eq_refl eq_refl eq_refl)).
Defined.

(** C8. When a candidate does not exist under its exact name, the
    existence test looks in the directory of the candidate for the first
    entry, in listing order, that has the same name in lower case and
    exists, and answers its absolute path.  A [PermissionError] of the
    listing is caught: the test answers [None], the candidate has no hit and
    the resolver goes on.  From [/docs/a.md], [README.md] resolves to
    [/docs/readme.md] when no [/docs/README.md] exists and [readme.md] is
    the first entry of [/docs] named so up to case. *)
Theorem case_insensitive_fallback (L : libs) (fs : filesystem) :
  (forall path entries,
      exists_ fs path = false ->
      isdir fs (dirname path) = true ->
      listdir fs (dirname path) = Return entries ->
      _case_insensitive_existing fs path
      = Return (option_map
                  (fun entry => abspath (cwd fs) (join (dirname path) entry))
                  (List.find
                     (fun entry =>
                        String.eqb (lower entry) (lower (basename path))
                        && exists_ fs (join (dirname path) entry))
                     entries)))
  /\ (forall path,
        exists_ fs path = false ->
        listdir fs (dirname path) = Raise PermissionError ->
        _case_insensitive_existing fs path = Return None
        /\ candidate_hit fs path = Return None
        /\ forall rest, first_hit fs (path :: rest) = first_hit fs rest)
  /\ (forall entries,
        urlparse L "README.md" = Return (Url "" "" "README.md") ->
        unquote L "README.md" = "README.md" ->
        exists_ fs "/docs/README.md" = false ->
        isdir fs "/docs" = true ->
        listdir fs "/docs" = Return entries ->
        List.find (fun entry => String.eqb (lower entry) "readme.md") entries
        = Some "readme.md" ->
        exists_ fs "/docs/readme.md" = true ->
        resolve_link L fs "/docs/a.md" "README.md"
        = Return (Some "/docs/readme.md")).
Proof.
  split; [|split].
  - intros path entries He Hd Hl. unfold _case_insensitive_existing.
    rewrite He, Hd, Hl. cbn. now rewrite first_entry_match_find.
  - intros path He Hl.
    assert (H : _case_insensitive_existing fs path = Return None).
    { unfold _case_insensitive_existing. rewrite He, Hl.
      now destruct (isdir fs (dirname path)). }
    assert (Hc : candidate_hit fs path = Return None).
    { unfold candidate_hit. now rewrite H. }
    repeat split; try assumption. intros rest. cbn [first_hit].
    now rewrite Hc.
  - intros entries Hp Hunq He Hd Hl Hfind Hex.
    rewrite (resolve_link_local L fs _ _ _ Hp);
      [|reflexivity|cbn [url_path]; now rewrite Hunq].
    cbn [url_path]. rewrite Hunq, candidates_order.
    replace (abspath (cwd fs) (join (dirname "/docs/a.md") (strip "README.md")))
      with "/docs/README.md" by (vm_compute; reflexivity).
    unfold candidates_in_order.
    replace (nonempty (snd (splitext "/docs/README.md"))) with true
      by (vm_compute; reflexivity).
    cbn [app first_hit].
    assert (Hhit : candidate_hit fs "/docs/README.md"
                   = Return (Some "/docs/readme.md")).
    { unfold candidate_hit, _case_insensitive_existing. rewrite He.
      replace (dirname "/docs/README.md") with "/docs"
        by (vm_compute; reflexivity).
      rewrite Hd, Hl. cbn [negb exc_bind except_PermissionError].
      rewrite first_entry_match_find.
      rewrite (find_sibling_first fs "/docs" _ entries "readme.md");
        [vm_compute; reflexivity|exact Hfind|exact Hex]. }
    now rewrite Hhit.
Qed.

(** [/docs] holds [readme.md] and no [README.md]; then the same directory,
    closed to listing. *)
Lemma case_insensitive_fallback_witness :
  resolve_link Demo.L Demo.readme "/docs/a.md" "README.md"
  = Return (Some "/docs/readme.md")
  /\ _case_insensitive_existing Demo.locked_dir "/docs/README.md"
     = Return None.
Proof.
  split.
  - apply (proj2 (proj2 (case_insensitive_fallback Demo.L Demo.readme))
             ["a.md"; "readme.md"]); reflexivity.
  - apply (proj1 (proj2 (case_insensitive_fallback Demo.L Demo.locked_dir)));
      reflexivity.
Defined.

(** ** The cache round trip *)

(** Induction on nodes, with the property known for the children. *)
Fixpoint node_forall_ind (P : node -> Prop)
  (H : forall i t c ch, Forall P ch -> P (Node i t c ch)) (n : node) : P n :=
  match n with
  | Node i t c ch =>
      H i t c ch
        ((fix go (l : list node) : Forall P l :=
            match l with
            | [] => @List.Forall_nil _ P
            | x :: xs =>
                @List.Forall_cons _ P x xs (node_forall_ind P H x) (go xs)
            end) ch)
  end.

Lemma length_append (a b : string) :
  String.length (a ++ b) = String.length a + String.length b.
Proof. induction a as [|c a IH]; cbn [String.append String.length]; lia. Qed.

Local Close Scope string_scope.
Local Open Scope N_scope.

(** *** Surrogates and hexadecimal digits *)

Lemma lor_shiftl_low (a b : N) :
  b < 1024 -> N.lor (N.shiftl a 10) b = a * 1024 + b.
Proof.
  intros Hb. rewrite N.shiftl_mul_pow2. change (2 ^ 10) with 1024.
  assert (Hland : N.land (a * 1024) b = 0).
  { apply N.bits_inj_0. intros n. rewrite N.land_spec.
    destruct (N.lt_ge_cases n 10) as [Hn|Hn].
    - change 1024 with (2 ^ 10). now rewrite N.mul_pow2_bits_low.
    - rewrite <- (N.mod_small b (2 ^ 10)) by exact Hb.
      rewrite (N.mod_pow2_bits_high b 10 n Hn). apply andb_false_r. }
  rewrite <- (N.lxor_lor _ _ Hland). symmetry.
  now apply N.add_nocarry_lxor.
Qed.

Lemma high_surrogate_of (n : N) :
  n < 0x100000 ->
  N.lor 0xd800 (N.land (N.shiftr n 10) 0x3ff) = 0xd800 + n / 1024.
Proof.
  intros Hn. change 0x3ff with (N.ones 10).
  rewrite N.land_ones, N.shiftr_div_pow2. change (2 ^ 10) with 1024.
  assert (Hq : n / 1024 < 1024) by (apply N.Div0.div_lt_upper_bound; lia).
  rewrite (N.mod_small _ _ Hq).
  change 0xd800 with (N.shiftl 54 10) at 1.
  rewrite (lor_shiftl_low _ _ Hq). reflexivity.
Qed.

Lemma low_surrogate_of (n : N) :
  N.lor 0xdc00 (N.land n 0x3ff) = 0xdc00 + n mod 1024.
Proof.
  change 0x3ff with (N.ones 10). rewrite N.land_ones.
  change (2 ^ 10) with 1024.
  assert (Hr : n mod 1024 < 1024) by (apply N.mod_lt; lia).
  change 0xdc00 with (N.shiftl 55 10) at 1.
  rewrite (lor_shiftl_low _ _ Hr). reflexivity.
Qed.

Lemma join_surrogates_of (n : N) :
  join_surrogates (0xd800 + n / 1024) (0xdc00 + n mod 1024) = 0x10000 + n.
Proof.
  unfold join_surrogates.
  rewrite (N.add_comm 0xd800), (N.add_comm 0xdc00), !N.add_sub.
  rewrite lor_shiftl_low by (apply N.mod_lt; lia).
  rewrite (N.div_mod n 1024) at 3 by lia. lia.
Qed.

Lemma hex_val_digit (d : N) : d < 16 -> hex_val (hex_digit d) = Some d.
Proof.
  intros Hd.
  assert (H : d = 0 \/ d = 1 \/ d = 2 \/ d = 3 \/ d = 4 \/ d = 5 \/ d = 6
              \/ d = 7 \/ d = 8 \/ d = 9 \/ d = 10 \/ d = 11 \/ d = 12
              \/ d = 13 \/ d = 14 \/ d = 15) by lia.
  repeat (destruct H as [->|H]; [reflexivity|]). now subst.
Qed.

Lemma decode_u_hex4 (n : N) :
  n < 0x10000 ->
  exists h3 h2 h1 h0,
    hex4 n = [h3; h2; h1; h0] /\ decode_u h3 h2 h1 h0 = Some n.
Proof.
  intros Hn. unfold hex4. eexists _, _, _, _. split; [reflexivity|].
  unfold decode_u.
  rewrite !hex_val_digit
    by (try (apply N.mod_lt; lia); apply N.Div0.div_lt_upper_bound; lia).
  f_equal.
  assert (E1 : n / 16 / 16 = n / 256) by apply N.Div0.div_div.
  assert (E2 : n / 256 / 16 = n / 4096) by apply N.Div0.div_div.
  pose proof (N.div_mod n 16 ltac:(lia)) as H0.
  pose proof (N.div_mod (n / 16) 16 ltac:(lia)) as H1.
  pose proof (N.div_mod (n / 256) 16 ltac:(lia)) as H2.
  rewrite E1 in H1. rewrite E2 in H2.
  generalize dependent (n / 4096). generalize dependent ((n / 256) mod 16).
  generalize dependent (n / 256). generalize dependent ((n / 16) mod 16).
  generalize dependent (n / 16). generalize dependent (n mod 16).
  intros. lia.
Qed.

(** *** Strings *)

(** The shapes of the escape of a code point. *)
Inductive escape_of (c : N) : ustr -> Prop :=
| escape_short (x : N) :
    In (c, x) [(34, 34); (92, 92); (10, 110); (13, 114); (9, 116); (8, 98);
               (12, 102)] ->
    escape_of c [BACKSLASH; x]
| escape_none :
    32 <= c <= 126 -> c <> 34 -> c <> 92 -> escape_of c [c]
| escape_u :
    c < 0x10000 -> escape_of c (u_escape c)
| escape_pair :
    0x10000 <= c ->
    escape_of c (u_escape (0xd800 + (c - 0x10000) / 1024)
                 ++ u_escape (0xdc00 + (c - 0x10000) mod 1024)).

Lemma encode_char_shape (c : N) :
  c <= 0x10ffff -> escape_of c (encode_char c).
Proof.
  intros Hc. unfold encode_char.
  destruct (N.eqb_spec c 34) as [->|H34];
    [apply escape_short; cbn; tauto|].
  destruct (N.eqb_spec c 92) as [->|H92];
    [apply escape_short; cbn; tauto|].
  destruct (N.eqb_spec c 10) as [->|H10];
    [apply escape_short; cbn; tauto|].
  destruct (N.eqb_spec c 13) as [->|H13];
    [apply escape_short; cbn; tauto|].
  destruct (N.eqb_spec c 9) as [->|H9];
    [apply escape_short; cbn; tauto|].
  destruct (N.eqb_spec c 8) as [->|H8];
    [apply escape_short; cbn; tauto|].
  destruct (N.eqb_spec c 12) as [->|H12];
    [apply escape_short; cbn; tauto|].
  destruct (N.leb_spec 32 c) as [Hlo|Hlo]; cbn [andb].
  - destruct (N.leb_spec c 126) as [Hhi|Hhi].
    + now apply escape_none.
    + destruct (N.ltb_spec c 0x10000) as [Hu|Hu]; [now apply escape_u|].
      cbv zeta. rewrite high_surrogate_of, low_surrogate_of by lia.
      now apply escape_pair.
  - rewrite (proj2 (N.ltb_lt c 0x10000)) by lia. apply escape_u. lia.
Qed.

Lemma high_surrogate_range (q : N) :
  q < 1024 ->
  0xd800 + q < 0x10000 /\ is_high_surrogate (0xd800 + q) = true
  /\ is_low_surrogate (0xd800 + q) = false.
Proof.
  intros Hq. unfold is_high_surrogate, is_low_surrogate.
  split; [lia|]. split.
  - apply andb_true_intro. split; apply N.leb_le; lia.
  - apply andb_false_intro1, N.leb_gt. lia.
Qed.

Lemma low_surrogate_range (r : N) :
  r < 1024 -> 0xdc00 + r < 0x10000 /\ is_low_surrogate (0xdc00 + r) = true.
Proof.
  intros Hr. unfold is_low_surrogate. split; [lia|].
  apply andb_true_intro. split; apply N.leb_le; lia.
Qed.

(** The scan of an escape with four digits. *)
Lemma scan_string_u_escape (n : N) (more acc : ustr) :
  n < 0x10000 ->
  scan_string (u_escape n ++ more) acc
  = if is_high_surrogate n then
      match more with
      | b :: u :: l3 :: l2 :: l1 :: l0 :: r3 =>
          if (b =? BACKSLASH) && (u =? 117) then
            match decode_u l3 l2 l1 l0 with
            | Some uni2 =>
                if is_low_surrogate uni2 then
                  scan_string r3 (acc ++ [join_surrogates n uni2])
                else scan_string more (acc ++ [n])
            | None => None
            end
          else scan_string more (acc ++ [n])
      | _ => scan_string more (acc ++ [n])
      end
    else scan_string more (acc ++ [n]).
Proof.
  intros Hn. destruct (decode_u_hex4 n Hn) as (h3 & h2 & h1 & h0 & Hh & Hd).
  unfold u_escape. rewrite Hh. cbn [app scan_string].
  change (BACKSLASH =? DQUOTE) with false.
  change (BACKSLASH =? BACKSLASH) with true.
  change (117 =? 117) with true. cbv iota. rewrite Hd.
  destruct (is_high_surrogate n); [|reflexivity].
  destruct more as [|b [|u [|l3 [|l2 [|l1 [|l0 r3]]]]]]; reflexivity.
Qed.

(** What follows the escape of a high surrogate is not the escape of a
    low one. *)
Definition no_low_escape (more : ustr) : Prop :=
  forall l3 l2 l1 l0 r,
    more = BACKSLASH :: 117 :: l3 :: l2 :: l1 :: l0 :: r ->
    exists u, decode_u l3 l2 l1 l0 = Some u /\ is_low_surrogate u = false.

Lemma scan_string_lone (n : N) (more acc : ustr) :
  n < 0x10000 ->
  (is_high_surrogate n = true -> no_low_escape more) ->
  scan_string (u_escape n ++ more) acc = scan_string more (acc ++ [n]).
Proof.
  intros Hn Hmore. rewrite scan_string_u_escape by exact Hn.
  destruct (is_high_surrogate n); [|reflexivity].
  specialize (Hmore eq_refl).
  destruct more as [|b [|u [|l3 [|l2 [|l1 [|l0 r3]]]]]]; try reflexivity.
  destruct (N.eqb_spec b BACKSLASH) as [->|_]; [|reflexivity].
  destruct (N.eqb_spec u 117) as [->|_]; [|reflexivity]. cbn [andb].
  destruct (Hmore l3 l2 l1 l0 r3 eq_refl) as (u2 & -> & ->). reflexivity.
Qed.

Lemma scan_string_encode_char (c : N) (more acc : ustr) :
  c <= 0x10ffff ->
  (is_high_surrogate c = true -> no_low_escape more) ->
  scan_string (encode_char c ++ more) acc = scan_string more (acc ++ [c]).
Proof.
  intros Hc Hmore.
  destruct (encode_char_shape c Hc) as [x Hx | Hr H34 H92 | Hu | Hp].
  - cbn [In] in Hx.
    repeat (destruct Hx as [[= <- <-]|Hx]; [reflexivity|]). destruct Hx.
  - cbn [app scan_string].
    rewrite (proj2 (N.eqb_neq c DQUOTE) H34),
            (proj2 (N.eqb_neq c BACKSLASH) H92).
    now rewrite (proj2 (N.ltb_ge c 32)) by lia.
  - now apply scan_string_lone.
  - set (n := c - 0x10000).
    assert (Hn : n < 0x100000) by (unfold n; lia).
    assert (Hq : n / 1024 < 1024) by (apply N.Div0.div_lt_upper_bound; lia).
    assert (Hr : n mod 1024 < 1024) by (apply N.mod_lt; lia).
    destruct (high_surrogate_range _ Hq) as (Hq1 & Hq2 & _).
    destruct (low_surrogate_range _ Hr) as (Hr1 & Hr2).
    rewrite <- List.app_assoc, scan_string_u_escape by exact Hq1.
    rewrite Hq2.
    destruct (decode_u_hex4 _ Hr1) as (h3 & h2 & h1 & h0 & Hh & Hd).
    unfold u_escape at 1. rewrite Hh. cbn [app].
    change ((BACKSLASH =? BACKSLASH) && (117 =? 117)) with true. cbv iota.
    rewrite Hd, Hr2, join_surrogates_of. do 3 f_equal. unfold n. lia.
Qed.

(** After the escapes of a string that does not start with a low
    surrogate, and before the closing quote, there is no escape of a low
    surrogate. *)
Lemma no_low_escape_encode (s tail : ustr) :
  is_str s = true ->
  match s with c :: _ => is_low_surrogate c = false | [] => True end ->
  no_low_escape (encode_chars s ++ DQUOTE :: tail).
Proof.
  intros Hs Hhead l3 l2 l1 l0 r E. destruct s as [|c s].
  - discriminate E.
  - cbn [is_str forallb] in Hs. apply andb_prop in Hs as [Hc _].
    apply N.leb_le in Hc. cbn [encode_chars] in E.
    rewrite <- List.app_assoc in E.
    destruct (encode_char_shape c Hc) as [x Hx | Hr H34 H92 | Hu | Hp].
    + cbn [In] in Hx.
      repeat (destruct Hx as [[= <- <-]|Hx]; [discriminate E|]). destruct Hx.
    + cbn [app] in E. injection E as -> _. now contradiction H92.
    + destruct (decode_u_hex4 c Hu) as (h3 & h2 & h1 & h0 & Hh & Hd).
      unfold u_escape in E. rewrite Hh in E. cbn [app] in E.
      injection E as <- <- <- <- _. now exists c.
    + set (n := c - 0x10000) in *.
      assert (Hq : n / 1024 < 1024)
        by (apply N.Div0.div_lt_upper_bound; unfold n; lia).
      destruct (high_surrogate_range _ Hq) as (Hq1 & _ & Hq3).
      destruct (decode_u_hex4 _ Hq1) as (h3 & h2 & h1 & h0 & Hh & Hd).
      unfold u_escape at 1 in E. rewrite Hh in E. cbn [app] in E.
      injection E as <- <- <- <- _. eexists. split; [exact Hd | exact Hq3].
Qed.

(** The scanner reads the escapes of a string back, when the string has no
    high surrogate followed by a low one. *)
Lemma scan_string_encode (s acc rest : ustr) :
  is_str s = true -> unpaired s = true ->
  scan_string (encode_chars s ++ DQUOTE :: rest) acc = Some (acc ++ s, rest).
Proof.
  revert acc. induction s as [|c s IH]; intros acc Hs Hu.
  - cbn [encode_chars app scan_string].
    change (DQUOTE =? DQUOTE) with true. cbv iota. now rewrite app_nil_r.
  - pose proof Hs as Hs'. cbn [is_str forallb] in Hs'.
    apply andb_prop in Hs' as [Hc Htl]. apply N.leb_le in Hc.
    cbn [encode_chars]. rewrite <- List.app_assoc.
    rewrite scan_string_encode_char; [| exact Hc |].
    + rewrite IH; [now rewrite <- List.app_assoc | exact Htl |].
      destruct s as [|d s]; [reflexivity|].
      cbn [unpaired] in Hu. now apply andb_prop in Hu as [_ Hu].
    + intros Hhigh. apply no_low_escape_encode; [exact Htl|].
      destruct s as [|d s]; [exact I|].
      cbn [unpaired] in Hu. apply andb_prop in Hu as [Hu _].
      rewrite Hhigh in Hu. cbn [andb] in Hu. now apply negb_true_iff in Hu.
Qed.

(** *** Values *)

Fixpoint json_forall_ind (P : json -> Prop)
  (Hnull : P JNull) (Hbool : forall b, P (JBool b))
  (Hstr : forall s, P (JStr s))
  (Harr : forall items, Forall P items -> P (JArr items))
  (Hobj : forall members, Forall (fun kv => P (snd kv)) members ->
                          P (JObj members))
  (v : json) : P v :=
  match v with
  | JNull => Hnull
  | JBool b => Hbool b
  | JStr s => Hstr s
  | JArr items =>
      Harr items
        ((fix go (l : list json) : Forall P l :=
            match l with
            | [] => @List.Forall_nil _ P
            | x :: xs =>
                @List.Forall_cons _ P x xs
                  (json_forall_ind P Hnull Hbool Hstr Harr Hobj x) (go xs)
            end) items)
  | JObj members =>
      Hobj members
        ((fix go (l : list (ustr * json))
            : Forall (fun kv => P (snd kv)) l :=
            match l with
            | [] => @List.Forall_nil _ _
            | x :: xs =>
                @List.Forall_cons _ (fun kv => P (snd kv)) x xs
                  (json_forall_ind P Hnull Hbool Hstr Harr Hobj (snd x))
                  (go xs)
            end) members)
  end.

Fixpoint tree_forall_ind (P : tree -> Prop)
  (H : forall i t c ch, Forall P ch -> P (Tree i t c ch)) (n : tree) : P n :=
  match n with
  | Tree i t c ch =>
      H i t c ch
        ((fix go (l : list tree) : Forall P l :=
            match l with
            | [] => @List.Forall_nil _ P
            | x :: xs =>
                @List.Forall_cons _ P x xs (tree_forall_ind P H x) (go xs)
            end) ch)
  end.

(** A string the cache keeps: a [str] without a high surrogate followed by
    a low one. *)
Definition plain (s : ustr) : Prop := is_str s = true /\ unpaired s = true.

(** A value the cache keeps: a value [json.dumps] can have been given (the
    keys of each dictionary are distinct) whose strings are plain. *)
Fixpoint plain_json (v : json) : Prop :=
  match v with
  | JStr s => plain s
  | JArr items => fold_right (fun x acc => plain_json x /\ acc) True items
  | JObj members =>
      NoDup (map fst members)
      /\ fold_right (fun kv acc => plain (fst kv) /\ plain_json (snd kv) /\ acc)
                    True members
  | _ => True
  end.

(** The fuel the decoder needs for a value. *)
Fixpoint jsize (v : json) : nat :=
  match v with
  | JArr items => S (list_sum (map (fun x => S (jsize x)) items))
  | JObj members => S (list_sum (map (fun kv => S (jsize (snd kv))) members))
  | _ => 1%nat
  end.

Lemma encode_string_append (s rest : ustr) :
  encode_string s ++ rest = DQUOTE :: encode_chars s ++ DQUOTE :: rest.
Proof.
  unfold encode_string. cbn [app]. now rewrite <- List.app_assoc.
Qed.

(** Every dump starts with a character that is neither white space nor a
    closing bracket, a closing brace or a comma. *)
Definition value_start (c : N) : Prop :=
  is_json_ws c = false /\ (c =? 93) = false
  /\ (c =? 125) = false /\ (c =? 44) = false.

Lemma dumps_head (v : json) :
  exists c r, dumps v = c :: r /\ value_start c.
Proof.
  destruct v as [|[]|s|items|members]; cbn [dumps app];
    unfold encode_string;
    eexists _, _; (split; [reflexivity|now repeat split]).
Qed.

Lemma skip_ws_dumps (v : json) (rest : ustr) :
  skip_ws (dumps v ++ rest) = dumps v ++ rest.
Proof.
  destruct (dumps_head v) as (c & r & -> & Hws & _).
  cbn [app skip_ws]. now rewrite Hws.
Qed.

Lemma skip_ws_space (s : ustr) : skip_ws (32 :: s) = skip_ws s.
Proof. reflexivity. Qed.

Lemma parse_value_unfold (fuel : nat) (c : N) (r : ustr) :
  parse_value (S fuel) (c :: r) =
  if c =? DQUOTE then
    match scan_string r [] with
    | Some (str, rest) => Decoded (JStr str, rest)
    | None => JSONDecodeError
    end
  else if c =? 123 then
    match skip_ws r with
    | c' :: rest =>
        if c' =? 125 then Decoded (JObj [], rest)
        else parse_members fuel (c' :: rest) []
    | [] => JSONDecodeError
    end
  else if c =? 91 then
    match skip_ws r with
    | c' :: rest =>
        if c' =? 93 then Decoded (JArr [], rest)
        else parse_elements fuel (c' :: rest) []
    | [] => JSONDecodeError
    end
  else
    match strip_literal (code_points "null") (c :: r),
          strip_literal (code_points "true") (c :: r),
          strip_literal (code_points "false") (c :: r) with
    | Some rest, _, _ => Decoded (JNull, rest)
    | _, Some rest, _ => Decoded (JBool true, rest)
    | _, _, Some rest => Decoded (JBool false, rest)
    | _, _, _ => if may_start_number c then NotModelled else JSONDecodeError
    end.
Proof. reflexivity. Qed.

Lemma parse_elements_unfold (fuel : nat) (s : ustr) (acc : list json) :
  parse_elements (S fuel) s acc =
  match parse_value fuel s with
  | Decoded (v, r) =>
      match skip_ws r with
      | c :: rest =>
          if c =? 93 then Decoded (JArr (acc ++ [v]), rest)
          else if c =? 44 then
            parse_elements fuel (skip_ws rest) (acc ++ [v])
          else JSONDecodeError
      | [] => JSONDecodeError
      end
  | JSONDecodeError => JSONDecodeError
  | NotModelled => NotModelled
  end.
Proof. reflexivity. Qed.

Lemma parse_members_unfold (fuel : nat) (r : ustr)
  (acc : list (ustr * json)) :
  parse_members (S fuel) (DQUOTE :: r) acc =
  match scan_string r [] with
  | Some (k, r1) =>
      match skip_ws r1 with
      | c1 :: r2 =>
          if c1 =? 58 then
            match parse_value fuel (skip_ws r2) with
            | Decoded (v, r3) =>
                match skip_ws r3 with
                | c :: rest =>
                    if c =? 125 then
                      Decoded (JObj (dict_set acc k v), rest)
                    else if c =? 44 then
                      parse_members fuel (skip_ws rest) (dict_set acc k v)
                    else JSONDecodeError
                | [] => JSONDecodeError
                end
            | JSONDecodeError => JSONDecodeError
            | NotModelled => NotModelled
            end
          else JSONDecodeError
      | [] => JSONDecodeError
      end
  | None => JSONDecodeError
  end.
Proof. reflexivity. Qed.

Lemma ustr_eqb_eq (a b : ustr) : ustr_eqb a b = true <-> a = b.
Proof.
  revert b. induction a as [|x a IH]; intros [|y b]; cbn [ustr_eqb];
    try (split; [discriminate|discriminate]); [now split|].
  rewrite andb_true_iff, N.eqb_eq, IH. split.
  - now intros [-> ->].
  - now intros [= -> ->].
Qed.

Lemma dict_set_fresh (acc : list (ustr * json)) (k : ustr) (v : json) :
  ~ In k (map fst acc) -> dict_set acc k v = acc ++ [(k, v)].
Proof.
  induction acc as [|[k' v'] acc IH]; cbn [dict_set map fst In app];
    [reflexivity|].
  intros Hnot. destruct (ustr_eqb k' k) eqn:E.
  - exfalso. apply Hnot. left. now apply ustr_eqb_eq.
  - f_equal. apply IH. intros Hin. apply Hnot. now right.
Qed.

(** What the decoder does on a dump. *)
Definition reads_back (v : json) : Prop :=
  plain_json v ->
  forall fuel rest,
    (jsize v <= fuel)%nat ->
    parse_value fuel (dumps v ++ rest) = Decoded (v, rest).

Lemma skip_ws_join (x : json) (xs : list json) (t : ustr) :
  skip_ws (join_comma (map dumps (x :: xs)) ++ t)
  = join_comma (map dumps (x :: xs)) ++ t.
Proof.
  destruct xs as [|z zs].
  - cbn [map join_comma]. apply skip_ws_dumps.
  - change (join_comma (map dumps (x :: z :: zs)))
      with (dumps x ++ [44; 32] ++ join_comma (map dumps (z :: zs))).
    rewrite <- List.app_assoc. apply skip_ws_dumps.
Qed.

Lemma parse_elements_dumps (xs : list json) :
  Forall reads_back xs ->
  forall x acc fuel rest,
    reads_back x ->
    plain_json (JArr (x :: xs)) ->
    (list_sum (map (fun y => S (jsize y)) (x :: xs)) <= fuel)%nat ->
    parse_elements fuel
      (join_comma (map dumps (x :: xs)) ++ [93] ++ rest) acc
    = Decoded (JArr (acc ++ x :: xs), rest).
Proof.
  induction 1 as [|y ys Hy Hys IH]; intros x acc fuel rest Hx Hd Hfuel.
  - cbn [map list_sum fold_right] in Hfuel. destruct fuel as [|fuel]; [lia|].
    cbn [map join_comma]. rewrite parse_elements_unfold.
    cbn [plain_json fold_right] in Hd.
    rewrite Hx by (tauto || lia).
    cbn [app skip_ws]. reflexivity.
  - cbn [map list_sum fold_right] in Hfuel. destruct fuel as [|fuel]; [lia|].
    change (join_comma (map dumps (x :: y :: ys)))
      with (dumps x ++ [44; 32] ++ join_comma (map dumps (y :: ys))).
    rewrite <- !List.app_assoc, parse_elements_unfold.
    cbn [plain_json fold_right] in Hd.
    rewrite Hx by (tauto || lia).
    cbn [app skip_ws].
    change (is_json_ws 44) with false. cbv iota.
    change (44 =? 93) with false. change (44 =? 44) with true. cbv iota.
    rewrite skip_ws_space, skip_ws_join.
    replace (acc ++ x :: y :: ys) with ((acc ++ [x]) ++ y :: ys)
      by now rewrite <- List.app_assoc.
    apply (IH y (acc ++ [x]) fuel rest Hy).
    + cbn [plain_json fold_right]. tauto.
    + cbn [map list_sum fold_right]. lia.
Qed.

(** One member of a dumped dictionary. *)
Definition dumps_member (kv : ustr * json) : ustr :=
  encode_string (fst kv) ++ [58; 32] ++ dumps (snd kv).

Lemma dumps_obj (members : list (ustr * json)) :
  dumps (JObj members)
  = [123] ++ join_comma (map dumps_member members) ++ [125].
Proof. reflexivity. Qed.

Lemma members_head (kv : ustr * json) (kvs : list (ustr * json))
  (t : ustr) :
  exists r, join_comma (map dumps_member (kv :: kvs)) ++ t = DQUOTE :: r.
Proof.
  destruct kvs as [|kv' kvs]; cbn [map join_comma]; unfold dumps_member at 1;
    rewrite <- ?List.app_assoc, encode_string_append; now eexists.
Qed.

Lemma skip_ws_members (kv : ustr * json) (kvs : list (ustr * json))
  (t : ustr) :
  skip_ws (join_comma (map dumps_member (kv :: kvs)) ++ t)
  = join_comma (map dumps_member (kv :: kvs)) ++ t.
Proof. destruct (members_head kv kvs t) as [r ->]. reflexivity. Qed.

Lemma parse_members_dumps (ms : list (ustr * json)) :
  Forall (fun kv => reads_back (snd kv)) ms ->
  forall k v acc fuel rest,
    reads_back v ->
    plain k -> plain_json v ->
    fold_right (fun kv P => plain (fst kv) /\ plain_json (snd kv) /\ P)
               True ms ->
    NoDup (map fst acc ++ k :: map fst ms) ->
    (list_sum (map (fun kv => S (jsize (snd kv))) ((k, v) :: ms)) <= fuel)%nat ->
    parse_members fuel
      (join_comma (map dumps_member ((k, v) :: ms)) ++ [125] ++ rest) acc
    = Decoded (JObj (acc ++ (k, v) :: ms), rest).
Proof.
  induction 1 as [|[k' v'] ms Hv' Hms IH];
    intros k v acc fuel rest Hv Hk Hdv Hdms Hnodup Hfuel;
    cbn [map list_sum fold_right snd] in Hfuel;
    (destruct fuel as [|fuel]; [lia|]);
    assert (Hfresh : ~ In k (map fst acc))
      by (apply NoDup_app in Hnodup as (_ & Hdisj & _);
          intros Hin; apply list_elem_of_In in Hin;
          apply (Hdisj k Hin); now left);
    destruct Hk as [Hk1 Hk2].
  - cbn [map join_comma]. unfold dumps_member. cbn [fst snd].
    rewrite <- !List.app_assoc, encode_string_append, parse_members_unfold.
    rewrite scan_string_encode by assumption.
    cbn [app skip_ws].
    change (is_json_ws 58) with false. cbv iota.
    change (58 =? 58) with true. cbv iota.
    rewrite skip_ws_space, skip_ws_dumps, Hv by (assumption || lia).
    cbn [skip_ws]. change (is_json_ws 125) with false. cbv iota.
    change (125 =? 125) with true. cbv iota.
    now rewrite dict_set_fresh.
  - change (join_comma (map dumps_member ((k, v) :: (k', v') :: ms)))
      with (dumps_member (k, v) ++ [44; 32]
            ++ join_comma (map dumps_member ((k', v') :: ms))).
    unfold dumps_member at 1. cbn [fst snd].
    rewrite <- !List.app_assoc, encode_string_append, parse_members_unfold.
    rewrite scan_string_encode by assumption.
    cbn [app skip_ws].
    change (is_json_ws 58) with false. cbv iota.
    change (58 =? 58) with true. cbv iota.
    rewrite skip_ws_space, skip_ws_dumps, Hv by (assumption || lia).
    cbn [skip_ws]. change (is_json_ws 44) with false. cbv iota.
    change (44 =? 125) with false. change (44 =? 44) with true. cbv iota.
    rewrite skip_ws_space, skip_ws_members, dict_set_fresh by assumption.
    replace (acc ++ (k, v) :: (k', v') :: ms)
      with ((acc ++ [(k, v)]) ++ (k', v') :: ms)
      by now rewrite <- List.app_assoc.
    cbn [fold_right fst snd] in Hdms.
    apply (IH k' v' (acc ++ [(k, v)]) fuel rest Hv');
      [tauto | tauto | tauto | | cbn [map list_sum fold_right snd]; lia].
    rewrite map_app, <- List.app_assoc. exact Hnodup.
Qed.

(** The decoder reads every dump of a plain value back, given fuel for its
    size. *)
Lemma parse_value_dumps (v : json) : reads_back v.
Proof.
  induction v as [| b | s | items IH | members IH] using json_forall_ind;
    intros Hd fuel rest Hfuel; cbn [jsize] in Hfuel;
    (destruct fuel as [|fuel]; [lia|]).
  - reflexivity.
  - destruct b; reflexivity.
  - cbn [dumps]. rewrite encode_string_append, parse_value_unfold.
    change (DQUOTE =? DQUOTE) with true. cbv iota.
    destruct Hd as [Hs Hu]. now rewrite scan_string_encode.
  - destruct items as [|x xs]; [reflexivity|].
    cbn [dumps]. rewrite <- !List.app_assoc. cbn [app].
    rewrite parse_value_unfold.
    change (91 =? DQUOTE) with false. change (91 =? 123) with false.
    change (91 =? 91) with true. cbv iota.
    rewrite skip_ws_join.
    assert (Hhead : exists c r,
               join_comma (map dumps (x :: xs)) ++ 93 :: rest
               = c :: r /\ (c =? 93) = false).
    { destruct (dumps_head x) as (c & r & Hc & _ & Hb & _).
      destruct xs as [|z zs].
      - cbn [map join_comma]. rewrite Hc. now eexists _, _.
      - change (join_comma (map dumps (x :: z :: zs)))
          with (dumps x ++ [44; 32] ++ join_comma (map dumps (z :: zs))).
        rewrite Hc. now eexists _, _. }
    destruct Hhead as (c & r & Hcr & Hb). rewrite Hcr, Hb, <- Hcr.
    apply Forall_cons in IH as [Hx Hxs].
    apply (parse_elements_dumps xs Hxs x [] fuel rest Hx Hd). lia.
  - destruct members as [|[k v] ms]; [reflexivity|].
    rewrite dumps_obj, <- !List.app_assoc. cbn [app].
    rewrite parse_value_unfold.
    change (123 =? DQUOTE) with false.
    change (123 =? 123) with true. cbv iota.
    rewrite skip_ws_members.
    destruct (members_head (k, v) ms (125 :: rest)) as (r & Hr).
    rewrite Hr.
    change (DQUOTE =? 125) with false. cbv iota. rewrite <- Hr.
    apply Forall_cons in IH as [Hv Hms]. cbn [snd] in Hv.
    cbn [plain_json fold_right fst snd map] in Hd.
    apply (parse_members_dumps ms Hms k v [] fuel rest Hv);
      [tauto | tauto | tauto | exact (proj1 Hd) | lia].
Qed.

Lemma sum_le_join {A} (w : A -> nat) (d : A -> ustr) (l : list A) :
  Forall (fun x => (w x <= length (d x))%nat) l ->
  (list_sum (map (fun x => S (w x)) l)
   <= length (join_comma (map d l)) + 1)%nat.
Proof.
  induction 1 as [|x l Hx Hl IH]; cbn [map list_sum fold_right length];
    [lia|].
  destruct l as [|y l]; cbn [map join_comma list_sum fold_right] in *; [lia|].
  rewrite !length_app. cbn [length]. lia.
Qed.

Lemma jsize_le_length (v : json) : (jsize v <= length (dumps v))%nat.
Proof.
  induction v as [| b | s | items IH | members IH] using json_forall_ind.
  - cbn. lia.
  - destruct b; cbn; lia.
  - cbn [jsize dumps]. unfold encode_string. cbn [length]. lia.
  - cbn [jsize dumps]. rewrite !length_app. cbn [length].
    pose proof (sum_le_join jsize dumps items IH). lia.
  - cbn [jsize]. rewrite dumps_obj, !length_app. cbn [length].
    assert (H : Forall (fun kv => (jsize (snd kv)
                                   <= length (dumps_member kv))%nat) members).
    { eapply Forall_impl; [exact IH|]. intros kv Hkv. cbv beta in Hkv.
      unfold dumps_member. rewrite !length_app. lia. }
    pose proof (sum_le_join (fun kv => jsize (snd kv)) dumps_member members H).
    lia.
Qed.

(** [json.loads(json.dumps(v)) == v] for a plain value. *)
Lemma loads_dumps (v : json) : plain_json v -> loads (dumps v) = Decoded v.
Proof.
  intros Hd. unfold loads.
  rewrite <- (app_nil_r (dumps v)) at 2. rewrite skip_ws_dumps.
  rewrite (parse_value_dumps v Hd _ []); [reflexivity|].
  pose proof (jsize_le_length v). lia.
Qed.

(** *** Trees *)

Lemma plain_tree_json (t : tree) :
  plain_tree t = true -> plain_json (tree_to_json t).
Proof.
  induction t as [i ti c ch IH] using tree_forall_ind. intros H.
  cbn [plain_tree] in H. repeat (apply andb_prop in H as [H ?]).
  cbn [tree_to_json plain_json map fst snd fold_right]. split.
  - repeat (apply NoDup_cons_2;
            [intros Hin;
             repeat (apply elem_of_cons in Hin as [Hin|Hin]; [discriminate|]);
             now apply elem_of_nil in Hin|]).
    apply NoDup_nil_2.
  - unfold plain. repeat split; try assumption; try reflexivity.
    match goal with Hch : forallb plain_tree ch = true |- _ =>
      induction IH as [|x xs Hx Hxs IHxs]; cbn [map fold_right];
      [exact I|];
      cbn [forallb] in Hch; apply andb_prop in Hch as [Hx' Hxs'];
      split; [now apply Hx | now apply IHxs]
    end.
Qed.

(** The children of a dictionary read back as trees. *)
Fixpoint trees_of_json (items : list json) : option (list tree) :=
  match items with
  | [] => Some []
  | x :: xs =>
      match tree_of_json x, trees_of_json xs with
      | Some n, Some ns => Some (n :: ns)
      | _, _ => None
      end
  end.

Lemma tree_of_json_unfold (i t c : ustr) (items : list json) :
  tree_of_json (JObj [(code_points "id", JStr i);
                      (code_points "title", JStr t);
                      (code_points "content", JStr c);
                      (code_points "children", JArr items)])
  = match trees_of_json items with
    | Some ch => Some (Tree i t c ch)
    | None => None
    end.
Proof. reflexivity. Qed.

Lemma tree_of_json_to_json (t : tree) : tree_of_json (tree_to_json t) = Some t.
Proof.
  induction t as [i ti c ch IH] using tree_forall_ind.
  cbn [tree_to_json]. rewrite tree_of_json_unfold.
  assert (H : trees_of_json (map tree_to_json ch) = Some ch).
  { induction IH as [|x xs Hx Hxs IHxs]; cbn [map trees_of_json];
      [reflexivity | now rewrite Hx, IHxs]. }
  now rewrite H.
Qed.

(** **** The trees of the walker's model *)

Lemma code_points_str (s : string) :
  is_str (code_points s) = true /\ unpaired (code_points s) = true.
Proof.
  assert (H : Forall (fun c => c < 256) (code_points s)).
  { unfold code_points. induction s as [|a s IH]; cbn; constructor;
      [apply N_ascii_bounded | exact IH]. }
  induction H as [|c l Hc Hl IH]; [now split|]. destruct IH as [IH1 IH2].
  split.
  - cbn [is_str forallb]. rewrite (proj2 (N.leb_le c 0x10ffff)) by lia.
    exact IH1.
  - destruct l as [|d l]; [reflexivity|]. cbn [unpaired].
    unfold is_high_surrogate at 1.
    rewrite (proj2 (N.leb_gt 0xd800 c)) by lia. exact IH2.
Qed.

Lemma node_tree_plain (n : node) : plain_tree (node_tree n) = true.
Proof.
  induction n as [i t c ch IH] using node_forall_ind.
  cbn [node_tree plain_tree].
  destruct (code_points_str i) as [-> ->], (code_points_str t) as [-> ->],
    (code_points_str c) as [-> ->]. cbn [andb].
  induction IH as [|x xs Hx Hxs IHxs]; cbn [map forallb];
    [reflexivity | now rewrite Hx].
Qed.

(** The trees of the walker's model are read back as they were written. *)
Lemma node_cache_round_trip (n : node) :
  loads (dumps (node_to_json n)) = Decoded (node_to_json n).
Proof. apply loads_dumps, plain_tree_json, node_tree_plain. Qed.

(** C9 as a statement about every tree of strings. *)
Definition cache_round_trip_claim : Prop :=
  forall t : tree,
    str_tree t = true ->
    loads (dumps (tree_to_json t)) = Decoded (tree_to_json t).

(** The node of a file whose frontmatter gives the title with the two
    escapes of a surrogate pair, as [yaml.safe_load] returns it: a [str] of
    the two surrogates U+D83D and U+DE00. *)
Definition surrogate_title : tree :=
  Tree (code_points "/docs/a.md") [0xd83d; 0xde00] (code_points "<p>x</p>")
       [].

(** C9, as stated, fails: [json.dump] writes the two surrogates of the
    title as two escapes, and [json.load] reads the two escapes as the one
    code point U+1F600; the tree read from the cache has another title than
    the tree that was written. *)
Lemma cache_round_trip_counterexample :
  loads (dumps (tree_to_json surrogate_title))
  = Decoded (tree_to_json
               (Tree (code_points "/docs/a.md") [0x1f600]
                     (code_points "<p>x</p>") []))
  /\ ~ cache_round_trip_claim.
Proof.
  assert (E : loads (dumps (tree_to_json surrogate_title))
              = Decoded (tree_to_json
                           (Tree (code_points "/docs/a.md") [0x1f600]
                                 (code_points "<p>x</p>") [])))
    by (vm_compute; reflexivity).
  split; [exact E|]. intros Hclaim.
  specialize (Hclaim surrogate_title eq_refl). rewrite E in Hclaim.
  vm_compute in Hclaim. discriminate Hclaim.
Qed.

(** C9, amended.  A tree whose strings have no high surrogate followed at
    once by a low one (every tree of well-formed Unicode text is one)
    is written to the cache as [json.dump] writes it (a dictionary with
    the keys [id], [title], [content], [children], the children a list of
    such dictionaries) and read again as [json.load] reads it, and what is
    read is the same dictionary; the tree it stands for is the original
    one: id, title and content are kept, and so are the children and their
    order. *)
Theorem cache_round_trip (t : tree) :
  plain_tree t = true ->
  loads (dumps (tree_to_json t)) = Decoded (tree_to_json t)
  /\ match loads (dumps (tree_to_json t)) with
     | Decoded v => tree_of_json v
     | _ => None
     end = Some t.
Proof.
  intros Ht. pose proof (loads_dumps _ (plain_tree_json t Ht)) as H.
  split; [exact H|]. rewrite H. apply tree_of_json_to_json.
Qed.

(** A tree with a dash, an emoji, accented letters, control characters and
    surrogates that stand alone or in the other order. *)
Definition unicode_tree : tree :=
  Tree (code_points "/docs/a.md") [97; 0x2014; 98; 0x1f600; 0xe9; 0x10ffff]
       (code_points "<p>x</p>" ++ [0xde00; 0xd83d; 10; 0; 127; 0xffff])
       [Tree (code_points "https://example.org/") [0xd83d] [34; 92; 47] [];
        Tree [] [0xdbff; 0xd800; 65; 0xdfff] [0xdc00] []].

Lemma cache_round_trip_witness :
  loads (dumps (tree_to_json unicode_tree))
  = Decoded (tree_to_json unicode_tree)
  /\ match loads (dumps (tree_to_json unicode_tree)) with
     | Decoded v => tree_of_json v
     | _ => None
     end = Some unicode_tree.
Proof.
  apply (cache_round_trip unicode_tree). vm_compute. reflexivity.
Defined.

Local Close Scope N_scope.
Local Open Scope string_scope.
Local Open Scope nat_scope.

(** * Further properties of the code *)

(** ** [extract_links] *)

Lemma take_until_spec (stop : ascii) (s : string) :
  s = fst (take_until stop s) ++ snd (take_until stop s)
  /\ has_char stop (fst (take_until stop s)) = false
  /\ (snd (take_until stop s) = ""
      \/ exists r, snd (take_until stop s) = String stop r).
Proof.
  induction s as [|c s IH]; cbn [take_until].
  - repeat split. now left.
  - destruct (Ascii.eqb_spec c stop) as [->|Hne].
    + repeat split. right. now exists s.
    + destruct (take_until stop s) as [run rest]. cbn [fst snd] in *.
      destruct IH as (Hs & Hrun & Hrest). repeat split.
      * cbn [String.append]. now f_equal.
      * cbn [has_char]. rewrite Hrun.
        now destruct (Ascii.eqb_spec c stop).
      * exact Hrest.
Qed.

Lemma take_until_run (stop : ascii) (run rest : string) :
  has_char stop run = false ->
  take_until stop (run ++ String stop rest) = (run, String stop rest).
Proof.
  induction run as [|c run IH]; cbn [has_char String.append take_until].
  - now rewrite Ascii.eqb_refl.
  - intros H. apply orb_false_elim in H as [Hc Hrun].
    now rewrite Hc, (IH Hrun).
Qed.

Lemma link_at_sound (s label target rest : string) :
  link_at s = Some (label, target, rest) ->
  s = "[" ++ label ++ "](" ++ target ++ ")" ++ rest
  /\ nonempty label = true /\ nonempty target = true
  /\ has_char "]" label = false /\ has_char ")" target = false.
Proof.
  unfold link_at. destruct s as [|c s]; [discriminate|].
  destruct (Ascii.eqb_spec c "[") as [->|Hc].
  2:{ destruct c as [[] [] [] [] [] [] [] []]; try discriminate.
      now contradiction Hc. }
  pose proof (take_until_spec "]" s) as (Hs & Hl & _).
  destruct (take_until "]" s) as [l r1]. cbn [fst snd] in *.
  destruct (nonempty l) eqn:Hnl; [|discriminate].
  destruct (strip_prefix "](" r1) as [s2|] eqn:Hp; [|discriminate].
  apply strip_prefix_Some in Hp.
  pose proof (take_until_spec ")" s2) as (Hs2 & Ht & _).
  destruct (take_until ")" s2) as [t r2]. cbn [fst snd] in *.
  destruct (nonempty t) eqn:Hnt; [|discriminate].
  destruct r2 as [|c2 r2]; [discriminate|].
  destruct (Ascii.eqb_spec c2 ")") as [->|Hc2].
  2:{ destruct c2 as [[] [] [] [] [] [] [] []]; try discriminate.
      now contradiction Hc2. }
  intros [= <- <- <-]. repeat split; try assumption.
  rewrite Hs, Hp, Hs2. cbn [String.append]. f_equal.
Qed.

Lemma link_at_complete (label target rest : string) :
  nonempty label = true -> has_char "]" label = false ->
  nonempty target = true -> has_char ")" target = false ->
  link_at ("[" ++ label ++ "](" ++ target ++ ")" ++ rest)
  = Some (label, target, rest).
Proof.
  intros Hnl Hl Hnt Ht. cbn [String.append]. unfold link_at.
  rewrite (take_until_run "]" label _ Hl), Hnl.
  cbn [strip_prefix]. rewrite !Ascii.eqb_refl.
  now rewrite (take_until_run ")" target _ Ht), Hnt.
Qed.

Lemma link_at_other (c : ascii) (s : string) :
  Ascii.eqb c "[" = false -> link_at (String c s) = None.
Proof.
  destruct c as [[] [] [] [] [] [] [] []]; try reflexivity. discriminate.
Qed.

Lemma link_at_shorter (s label target rest : string) :
  link_at s = Some (label, target, rest) ->
  String.length rest < String.length s.
Proof.
  intros H. apply link_at_sound in H as (-> & _).
  rewrite !length_append. cbn [String.length]. lia.
Qed.

(** The scan has all the fuel it needs in the length of the text. *)
Lemma finditer_fuel (f1 : nat) :
  forall f2 s,
    String.length s <= f1 -> String.length s <= f2 ->
    finditer f1 s = finditer f2 s.
Proof.
  induction f1 as [|f1 IH]; intros f2 s H1 H2.
  - destruct s; [|cbn in H1; lia]. now destruct f2.
  - destruct s as [|c s]; [now destruct f2|].
    destruct f2 as [|f2]; [cbn in H2; lia|].
    cbn [String.length] in H1, H2. cbn [finditer].
    destruct (link_at (String c s)) as [[[l t] rest]|] eqn:E.
    + apply link_at_shorter in E. cbn [String.length] in E.
      f_equal. apply IH; lia.
    + apply IH; lia.
Qed.

Lemma extract_links_cons (c : ascii) (s : string) :
  extract_links (String c s) =
  match link_at (String c s) with
  | Some (label, target, rest) => (label, target) :: extract_links rest
  | None => extract_links s
  end.
Proof.
  unfold extract_links. cbn [String.length finditer].
  destruct (link_at (String c s)) as [[[l t] rest]|] eqn:E; [|reflexivity].
  apply link_at_shorter in E. cbn [String.length] in E.
  f_equal. apply finditer_fuel; lia.
Qed.

(** X1. Every pair that [extract_links] returns stands in the text as
    [[label](target)]; the label is not empty and holds no closing bracket,
    the target is not empty and holds no closing parenthesis. *)
Theorem extract_links_sound (text label target : string) :
  In (label, target) (extract_links text) ->
  (exists pre post,
      text = pre ++ "[" ++ label ++ "](" ++ target ++ ")" ++ post)
  /\ nonempty label = true /\ nonempty target = true
  /\ has_char "]" label = false /\ has_char ")" target = false.
Proof.
  remember (String.length text) as n eqn:Hn.
  revert text Hn. induction n as [n IH] using lt_wf_ind. intros text ->.
  destruct text as [|c s]; [intros []|].
  rewrite extract_links_cons.
  destruct (link_at (String c s)) as [[[l t] rest]|] eqn:E.
  - intros [[= <- <-]|Hin].
    + apply link_at_sound in E as (-> & H). split; [|exact H].
      now exists "", rest.
    + pose proof (link_at_shorter _ _ _ _ E) as Hlt.
      destruct (IH _ Hlt rest eq_refl Hin) as ((pre & post & Hrest) & H).
      split; [|exact H].
      apply link_at_sound in E as (-> & _). rewrite Hrest.
      exists ("[" ++ l ++ "](" ++ t ++ ")" ++ pre), post.
      now rewrite !append_assoc.
  - intros Hin.
    destruct (IH (String.length s) (Nat.lt_succ_diag_r _) s eq_refl Hin)
      as ((pre & post & ->) & H).
    split; [|exact H]. now exists (String c pre), post.
Qed.

Lemma extract_links_sound_witness :
  exists pre post,
    "see [a](b.md) and [c [d](e) f" = pre ++ "[" ++ "c [d" ++ "](" ++ "e" ++ ")" ++ post.
Proof.
  apply (extract_links_sound "see [a](b.md) and [c [d](e) f" "c [d" "e").
  vm_compute. right. now left.
Defined.

(** X2. A link that follows text without an opening bracket is the first
    pair found, and the scan goes on after its closing parenthesis; a text
    without an opening bracket has no links. *)
Theorem extract_links_first (pre label target post : string) :
  has_char "[" pre = false ->
  (nonempty label = true -> has_char "]" label = false ->
   nonempty target = true -> has_char ")" target = false ->
   extract_links (pre ++ "[" ++ label ++ "](" ++ target ++ ")" ++ post)
   = (label, target) :: extract_links post)
  /\ extract_links pre = [].
Proof.
  intros Hpre. split.
  - intros Hnl Hl Hnt Ht. induction pre as [|c pre IH].
    + cbn [String.append]. rewrite extract_links_cons.
      pose proof (link_at_complete label target post Hnl Hl Hnt Ht) as E.
      cbn [String.append] in E. now rewrite E.
    + cbn [has_char] in Hpre. apply orb_false_elim in Hpre as [Hc Hpre].
      cbn [String.append]. rewrite extract_links_cons, link_at_other by exact Hc.
      now apply IH.
  - induction pre as [|c pre IH]; [reflexivity|].
    cbn [has_char] in Hpre. apply orb_false_elim in Hpre as [Hc Hpre].
    rewrite extract_links_cons, link_at_other by exact Hc. now apply IH.
Qed.

Lemma extract_links_first_witness :
  extract_links ("See " ++ "[" ++ "B" ++ "](" ++ "b.md" ++ ")" ++ ".")
  = [("B", "b.md")].
Proof.
  rewrite (proj1 (extract_links_first "See " "B" "b.md" "." eq_refl)
             eq_refl eq_refl eq_refl eq_refl).
  now rewrite (proj2 (extract_links_first "." "" "" "" eq_refl)).
Defined.

(** ** Documents with a frontmatter block *)

(** A document made of a delimiter line, a metadata block, a delimiter
    line and a body. *)
Definition frontmatter_document (block body : string) : string :=
  "---" ++ NLs ++ block ++ NLs ++ "---" ++ NLs ++ body.

Definition starts_with_space (s : string) : bool :=
  match s with
  | String c _ => is_space c
  | EmptyString => false
  end.

(** [p in s] *)
Fixpoint occurs (p s : string) : bool :=
  startswith s p
  || match s with
     | String _ s' => occurs p s'
     | EmptyString => false
     end.

Lemma startswith_append (a more p : string) :
  String.length p <= String.length a ->
  startswith (a ++ more) p = startswith a p.
Proof.
  unfold startswith. revert a. induction p as [|x p IH]; intros a Hlen.
  - reflexivity.
  - destruct a as [|y a]; [cbn in Hlen; lia|].
    cbn [String.append strip_prefix]. destruct (Ascii.eqb x y); [|reflexivity].
    apply IH. cbn [String.length] in Hlen. lia.
Qed.

Lemma occurs_suffix (p g1 g2 : string) :
  occurs p (g1 ++ g2) = false -> startswith g2 p = false.
Proof.
  induction g1 as [|c g1 IH]; cbn [String.append].
  - destruct g2; cbn [occurs]; intros H;
      now apply orb_false_elim in H as [H _].
  - cbn [occurs]. intros H. apply orb_false_elim in H as [_ H]. now apply IH.
Qed.

Section FrontmatterRoundTrip.
Context {A : Type}.

Lemma re_lit_None (p : string) (k : string -> option A) (s : string) :
  startswith s p = false -> re_lit p k s = None.
Proof.
  unfold re_lit, startswith. now destruct (strip_prefix p s).
Qed.

Lemma re_lit_append (p : string) (k : string -> option A) (s : string) :
  re_lit p k (p ++ s) = k s.
Proof.
  unfold re_lit.
  now rewrite (proj2 (strip_prefix_Some p (p ++ s) s) eq_refl).
Qed.

Lemma startswith_NL_nonspace (s : string) :
  starts_with_space s = false -> startswith s NLs = false.
Proof.
  destruct s as [|c s]; [reflexivity|]. cbn [starts_with_space].
  unfold startswith, NLs. cbn [strip_prefix].
  destruct (Ascii.eqb_spec NL c) as [<-|_]; [discriminate | reflexivity].
Qed.

(** Greedy white space before a newline, in front of text that does not
    start with white space: the newline is the one just before the text. *)
Lemma re_space_star_newline (k : string -> option A) (s : string) :
  starts_with_space s = false ->
  re_space_star (re_lit NLs k) (NLs ++ s) = k s.
Proof.
  intros Hs. unfold NLs at 2. cbn [String.append re_space_star].
  change (is_space NL) with true. cbv iota.
  assert (H : re_space_star (re_lit NLs k) s = None).
  { destruct s as [|c s]; cbn [re_space_star].
    - reflexivity.
    - cbn [starts_with_space] in Hs. rewrite Hs.
      apply re_lit_None, startswith_NL_nonspace. cbn. exact Hs. }
  rewrite H. exact (re_lit_append NLs k s).
Qed.

(** The lazy group stops at the first place where the continuation
    succeeds. *)
Lemma re_any_lazy_first (k : string -> string -> option A)
  (g : string) :
  forall acc rest r,
    (forall g1 c g2, g = g1 ++ String c g2 ->
                     k (acc ++ g1) (String c g2 ++ rest) = None) ->
    k (acc ++ g) rest = Some r ->
    re_any_lazy k acc (g ++ rest) = Some r.
Proof.
  induction g as [|c g IH]; intros acc rest r Hnone Hk.
  - rewrite append_nil_r in Hk. cbn [String.append].
    destruct rest; cbn [re_any_lazy]; now rewrite Hk.
  - cbn [String.append re_any_lazy].
    pose proof (Hnone "" c g eq_refl) as H0. rewrite append_nil_r in H0.
    cbn [String.append] in H0. rewrite H0.
    apply IH.
    + intros g1 c' g2 ->. rewrite append_snoc.
      exact (Hnone (String c g1) c' g2 eq_refl).
    + now rewrite append_snoc.
Qed.

End FrontmatterRoundTrip.

Lemma frontmatter_match_document (block body : string) :
  nonempty block = true ->
  starts_with_space block = false ->
  occurs (NLs ++ "---") (block ++ NLs ++ "--") = false ->
  starts_with_space body = false ->
  frontmatter_match (frontmatter_document block body) = Some (block, body).
Proof.
  intros Hne Hblock Hocc Hbody.
  unfold frontmatter_match, frontmatter_document.
  rewrite re_lit_append.
  rewrite re_space_star_newline.
  2:{ destruct block; [discriminate | exact Hblock]. }
  apply (re_any_lazy_first _ block "").
  - intros g1 c g2 Hg. apply re_lit_None.
    replace (String c g2 ++ NLs ++ "---" ++ NLs ++ body)
      with ((String c g2 ++ NLs ++ "--") ++ ("-" ++ NLs ++ body))
      by (now rewrite !append_assoc).
    rewrite startswith_append
      by (rewrite !length_append; cbn [String.length NLs]; lia).
    apply (occurs_suffix _ g1). rewrite Hg in Hocc.
    now rewrite !append_assoc in Hocc.
  - change ("" ++ block) with block.
    rewrite <- (append_assoc NLs "---"), re_lit_append.
    rewrite re_space_star_newline by exact Hbody.
    now rewrite re_any_greedy_eos.
Qed.

(** X3. A document whose metadata block starts with a character other than
    white space and holds no line that starts with three dashes, and whose
    body does not start with white space, is split into exactly that block
    and that body; [parse_frontmatter] then returns what [yaml.safe_load]
    makes of the block, or the empty mapping when that is falsy, together
    with the body. *)
Theorem frontmatter_document_split (L : libs) (block body : string) :
  nonempty block = true ->
  starts_with_space block = false ->
  occurs (NLs ++ "---") (block ++ NLs ++ "--") = false ->
  starts_with_space body = false ->
  frontmatter_match (frontmatter_document block body) = Some (block, body)
  /\ forall v,
      safe_load L block = Return v ->
      parse_frontmatter L (frontmatter_document block body)
      = Return (if truthy v then v else PyDict [], body).
Proof.
  intros Hne Hblock Hocc Hbody.
  pose proof (frontmatter_match_document block body Hne Hblock Hocc Hbody)
    as Hm.
  split; [exact Hm|]. intros v Hv. unfold parse_frontmatter.
  rewrite Hm, Hv. reflexivity.
Qed.

Lemma frontmatter_document_split_witness :
  frontmatter_match (frontmatter_document "title: Alpha" "See [B](b.md).")
  = Some ("title: Alpha", "See [B](b.md).")
  /\ parse_frontmatter Demo.L
       (frontmatter_document "title: Alpha" "See [B](b.md).")
     = Return (PyDict [(PyStr "title", PyStr "Alpha")], "See [B](b.md).").
Proof.
  destruct (frontmatter_document_split Demo.L "title: Alpha" "See [B](b.md)."
              eq_refl eq_refl eq_refl eq_refl) as [Hm Hp].
  split; [exact Hm|]. exact (Hp _ eq_refl).
Defined.

(** ** Exceptions in the walker *)

Lemma parse_frontmatter_value (L : libs) (text : string) (fm : pyval)
  (body : string) :
  parse_frontmatter L text = Return (fm, body) ->
  truthy fm = true \/ fm = PyDict [].
Proof.
  unfold parse_frontmatter.
  destruct (frontmatter_match text) as [[fm_text b]|];
    [|intros [= <- _]; now right].
  destruct (safe_load L fm_text) as [v|e]; cbn [exc_bind try_except].
  - unfold py_or. destruct (truthy v) eqn:Hv; intros [= <- _]; auto.
  - intros [= <- _]. now right.
Qed.

(** A file system made like those of the examples. *)
Definition bad_frontmatter : filesystem :=
  Demo.mkfs [("/docs", ["a.md"; "bad.md"])]
    [("/docs/a.md", "[Bad](bad.md)");
     ("/docs/bad.md", frontmatter_document "just text" "body")]
    [] [].

(** X4. When the frontmatter block of a readable file loads as a truthy
    value that is not a mapping (a plain scalar, a list), [parse_md] raises
    [AttributeError] on that file, visited or not; and the loop over the
    links of a parent does not catch what the recursive call raises. *)
Theorem non_mapping_frontmatter_raises (L : libs) (fs : filesystem) :
  (forall fuel path seen link_text text fm_text body v,
      read_text fs (resolve fs path) = Some text ->
      frontmatter_match text = Some (fm_text, body) ->
      safe_load L fm_text = Return v ->
      truthy v = true ->
      (forall items, v <> PyDict items) ->
      parse_md (S fuel) L fs path seen link_text = Raised AttributeError)
  /\ (forall recur path label target rest children seen resolved e,
        is_external_link L target = Return false ->
        resolve_link L fs path target = Return (Some resolved) ->
        nonempty resolved = true ->
        recur resolved seen (Some label) = Raised e ->
        walk_links recur L fs path ((label, target) :: rest) children seen
        = Raised e).
Proof.
  split.
  - intros fuel path seen lt text fm_text body v Hread Hm Hv Ht Hnot.
    rewrite parse_md_unfold. cbv zeta. unfold _read_file_text.
    rewrite Hread. unfold parse_frontmatter. rewrite Hm, Hv.
    cbn [exc_bind try_except]. unfold py_or, frontmatter_title, py_or.
    rewrite !Ht. destruct v; try reflexivity. now contradiction (Hnot items).
  - intros recur path label target rest children seen resolved e
      Hext Hres Hne Hrec.
    cbn [walk_links]. rewrite Hext, Hres.
    change (default "" (Some resolved)) with resolved.
    cbn [opt_truthy]. now rewrite Hne, Hrec.
Qed.

Lemma non_mapping_frontmatter_raises_witness :
  parse_md 1 Demo.L bad_frontmatter "/docs/bad.md" ∅ (Some "Bad")
  = Raised AttributeError
  /\ walk_links (parse_md 1 Demo.L bad_frontmatter) Demo.L bad_frontmatter
       "/docs/a.md" [("Bad", "bad.md")] [] {["/docs/a.md"]}
     = Raised AttributeError.
Proof.
  destruct (non_mapping_frontmatter_raises Demo.L bad_frontmatter)
    as [Hraise Hstep].
  assert (H : forall seen,
             parse_md 1 Demo.L bad_frontmatter "/docs/bad.md" seen (Some "Bad")
             = Raised AttributeError).
  { intros seen.
    apply (Hraise 0 "/docs/bad.md" seen (Some "Bad")
             (frontmatter_document "just text" "body") "just text" "body"
             (PyStr "just text")); try reflexivity.
    intros items. discriminate. }
  split; [apply H|].
  exact (Hstep _ "/docs/a.md" "Bad" "bad.md" [] [] _ "/docs/bad.md"
           AttributeError eq_refl eq_refl eq_refl (H _)).
Defined.

(** ** The visited set *)

Lemma walk_links_seen
  (recur : string -> seen_set -> option string -> res (option node))
  (L : libs) (fs : filesystem) (path : string) :
  (forall p s lt a s',
      recur p s lt = Done a s' ->
      s ⊆ s' /\ forall q, q ∈ s' -> q ∈ s \/ is_Some (read_text fs q)) ->
  forall links children seen cs seen',
    walk_links recur L fs path links children seen = Done cs seen' ->
    seen ⊆ seen' /\ forall q, q ∈ seen' -> q ∈ seen \/ is_Some (read_text fs q).
Proof.
  intros Hrec links. induction links as [|[label target] rest IH];
    intros children seen cs seen'; cbn [walk_links].
  - intros [= _ <-]. split; [reflexivity | now left].
  - destruct (is_external_link L target) as [[|]|e];
      [apply IH| |discriminate].
    destruct (resolve_link L fs path target) as [resolved|e]; [|discriminate].
    destruct (opt_truthy resolved); [|apply IH].
    destruct (recur (default "" resolved) seen (Some label))
      as [a s| |] eqn:Hr; try discriminate.
    apply Hrec in Hr as [Hsub Hnew].
    intros Hw.
    assert (Hrest : s ⊆ seen'
                    /\ forall q, q ∈ seen' -> q ∈ s \/ is_Some (read_text fs q))
      by (destruct a; exact (IH _ _ _ _ Hw)).
    destruct Hrest as [Hsub' Hnew'].
    split; [intros q Hq; now apply Hsub', Hsub|].
    intros q Hq. destruct (Hnew' q Hq) as [Hs|Hs]; [|now right].
    exact (Hnew q Hs).
Qed.

(** X6. A call of [parse_md] that returns leaves a visited set that holds
    all it was given; what it adds are canonical paths of files it could
    read; and when it returns a node, the path of that node is in the set. *)
Theorem visited_set_grows (L : libs) (fs : filesystem) (fuel : nat)
  (path : string) (seen seen' : seen_set) (link_text : option string)
  (a : option node) :
  parse_md fuel L fs path seen link_text = Done a seen' ->
  seen ⊆ seen'
  /\ (forall q, q ∈ seen' -> q ∈ seen \/ is_Some (read_text fs q))
  /\ (forall n, a = Some n -> node_id n ∈ seen').
Proof.
  revert path seen seen' link_text a.
  induction fuel as [|fuel IH]; intros path seen seen' lt a; [discriminate|].
  rewrite parse_md_unfold. cbv zeta. unfold _read_file_text.
  destruct (read_text fs (resolve fs path)) as [text|] eqn:Hread.
  2:{ intros [= <- <-].
      split; [reflexivity|split; [now left | discriminate]]. }
  destruct (parse_frontmatter L text) as [[fm body]|e]; [|discriminate].
  destruct (frontmatter_title fm) as [fm_title|e]; [|discriminate].
  destruct (decide (resolve fs path ∈ seen)) as [Hin|Hnot].
  { intros [= <- <-]. split; [reflexivity|split; [now left|]].
    intros n [= <-]. exact Hin. }
  destruct (walk_links _ _ _ _ _ _ _) as [children s| |] eqn:Hw;
    try discriminate.
  intros [= <- <-].
  apply (walk_links_seen (parse_md fuel L fs)) in Hw as [Hsub Hnew].
  - split; [|split].
    + intros q Hq. apply Hsub, elem_of_union. now right.
    + intros q Hq. destruct (Hnew q Hq) as [Hs|Hs]; [|now right].
      apply elem_of_union in Hs as [Hs|Hs]; [|now left].
      apply elem_of_singleton in Hs as ->. right. now rewrite Hread.
    + intros n [= <-]. cbn [node_id].
      apply Hsub, elem_of_union. left. now apply elem_of_singleton.
  - intros p s0 lt' a' s' Hp. destruct (IH _ _ _ _ _ Hp) as (H1 & H2 & _).
    now split.
Qed.

Lemma visited_set_grows_witness :
  exists seen',
    parse_md 1 Demo.L Demo.titles "/docs/plain.md" {["/docs/root.md"]}
      (Some "Two")
    = Done (Some (Node "/docs/plain.md" "Two" "<p>p</p>" [])) seen'
    /\ {["/docs/root.md"]} ⊆ seen'
    /\ "/docs/plain.md" ∈ seen'.
Proof.
  assert (E : parse_md 1 Demo.L Demo.titles "/docs/plain.md"
                {["/docs/root.md"]} (Some "Two")
              = Done (Some (Node "/docs/plain.md" "Two" "<p>p</p>" []))
                     {["/docs/root.md"; "/docs/plain.md"]})
    by (vm_compute; reflexivity).
  eexists. split; [exact E|].
  destruct (visited_set_grows _ _ _ _ _ _ _ _ E) as (Hsub & _ & Hin).
  split; [exact Hsub | exact (Hin _ eq_refl)].
Defined.

(** ** One child per link *)

Lemma parse_md_none_inv (fuel : nat) (L : libs) (fs : filesystem)
  (path : string) (seen seen' : seen_set) (link_text : option string) :
  parse_md fuel L fs path seen link_text = Done None seen' ->
  read_text fs (resolve fs path) = None.
Proof.
  destruct fuel as [|fuel]; [discriminate|].
  rewrite parse_md_unfold. cbv zeta. unfold _read_file_text.
  destruct (read_text fs (resolve fs path)) as [text|]; [|reflexivity].
  destruct (parse_frontmatter L text) as [[fm body]|]; [|discriminate].
  destruct (frontmatter_title fm); [|discriminate].
  destruct (decide _); [discriminate|].
  destruct (walk_links _ _ _ _ _ _ _); discriminate.
Qed.

(** The child that the loop of [parse_md] appends for a link found in the
    file [path]. *)
Definition child_of_link (L : libs) (fs : filesystem) (path : string)
  (link : string * string) (child : node) : Prop :=
  let label := fst link in
  let target := snd link in
  (is_external_link L target = Return true
   /\ child = Node target label ("<i>External link: " ++ target ++ "</i>") [])
  \/ (is_external_link L target = Return false
      /\ exists resolved,
          resolve_link L fs path target = Return resolved
          /\ ((opt_truthy resolved = false
               /\ child = Node target label
                            ("<i>Unresolved link: " ++ target ++ "</i>") [])
              \/ exists r,
                  resolved = Some r /\ nonempty r = true
                  /\ ((read_text fs (resolve fs r) = None
                       /\ child = Node r label "<i>Could not load</i>" [])
                      \/ (is_Some (read_text fs (resolve fs r))
                          /\ node_id child = resolve fs r)))).

Lemma walk_links_children
  (recur : string -> seen_set -> option string -> res (option node))
  (L : libs) (fs : filesystem) (path : string) :
  (forall r s lt s', recur r s lt = Done None s' ->
                     read_text fs (resolve fs r) = None) ->
  (forall r s lt c s', recur r s lt = Done (Some c) s' ->
                       is_Some (read_text fs (resolve fs r))
                       /\ node_id c = resolve fs r) ->
  forall links children seen cs seen',
    Forall (fun link => nonempty (fst link) = true) links ->
    walk_links recur L fs path links children seen = Done cs seen' ->
    exists extra,
      cs = (children ++ extra)%list
      /\ Forall2 (child_of_link L fs path) links extra.
Proof.
  intros Hnone Hsome links.
  induction links as [|[label target] rest IH];
    intros children seen cs seen' Hlabels; cbn [walk_links].
  - intros [= <- _]. exists []. split; [now rewrite app_nil_r | constructor].
  - apply Forall_cons in Hlabels as [Hlabel Hlabels]. cbn [fst] in Hlabel.
    assert (Hor : forall x, str_or label x = label)
      by (intros x; unfold str_or; now rewrite Hlabel).
    assert (Hstep : forall child seen0,
               child_of_link L fs path (label, target) child ->
               walk_links recur L fs path rest (append children child) seen0
               = Done cs seen' ->
               exists extra,
                 cs = (children ++ extra)%list
                 /\ Forall2 (child_of_link L fs path)
                      ((label, target) :: rest) extra).
    { intros child seen0 Hchild Hw.
      destruct (IH _ _ _ _ Hlabels Hw) as (extra & -> & Hextra).
      exists (child :: extra). unfold append. rewrite <- app_assoc.
      split; [reflexivity | now constructor]. }
    destruct (is_external_link L target) as [[|]|e] eqn:Hext;
      [| |discriminate].
    { apply Hstep. left. cbn [fst snd]. split; [exact Hext|].
      unfold external_node. now rewrite Hor. }
    destruct (resolve_link L fs path target) as [resolved|e] eqn:Hres;
      [|discriminate].
    destruct (opt_truthy resolved) eqn:Htruthy.
    2:{ apply Hstep. right. cbn [fst snd]. split; [exact Hext|].
        exists resolved. split; [exact Hres|]. left. split; [assumption|].
        unfold unresolved_node. now rewrite Hor. }
    destruct resolved as [r|]; [|discriminate].
    change (default "" (Some r)) with r. cbn [opt_truthy] in Htruthy.
    destruct (recur r seen (Some label)) as [[child|] s| |] eqn:Hr;
      try discriminate.
    + apply Hstep. right. cbn [fst snd]. split; [exact Hext|].
      exists (Some r). split; [exact Hres|]. right. exists r.
      split; [reflexivity|]. split; [assumption|].
      right. exact (Hsome _ _ _ _ _ Hr).
    + apply Hstep. right. cbn [fst snd]. split; [exact Hext|].
      exists (Some r). split; [exact Hres|]. right. exists r.
      split; [reflexivity|]. split; [assumption|].
      left. split; [exact (Hnone _ _ _ _ Hr)|].
      unfold could_not_load_node. now rewrite Hor.
Qed.

(** X7. The node of a file that [parse_md] expands has one child for each
    link of the body, in the order of the links: the external leaf with
    the raw target as id and the label as title, or the unresolved leaf,
    or the could-not-load leaf with the resolved path as id when the file
    cannot be read, or else a node whose id is the canonical path of the
    resolved file.  So the number of children is the number of links. *)
Theorem children_follow_links (L : libs) (fs : filesystem) (fuel : nat)
  (path : string) (seen seen' : seen_set) (link_text : option string)
  (n : node) :
  parse_md fuel L fs path seen link_text = Done (Some n) seen' ->
  resolve fs path ∉ seen ->
  exists text fm body,
    read_text fs (resolve fs path) = Some text
    /\ parse_frontmatter L text = Return (fm, body)
    /\ Forall2 (child_of_link L fs (resolve fs path))
         (extract_links body) (node_children n)
    /\ length (node_children n) = length (extract_links body).
Proof.
  intros H Hnot.
  apply parse_md_node_inv in H
    as (fuel' & text & fm & body & fm_title & _ & Hread & Hfm & _ & _ & _ & _
        & _ & Hw).
  specialize (Hw Hnot).
  apply (walk_links_children (parse_md fuel' L fs)) in Hw
    as (extra & Hcs & Hall).
  - cbn [app] in Hcs. rewrite Hcs. exists text, fm, body.
    repeat split; try assumption. symmetry. exact (Forall2_length _ _ _ Hall).
  - intros r s lt s' Hr. exact (parse_md_none_inv _ _ _ _ _ _ _ Hr).
  - intros r s lt c s' Hr.
    apply parse_md_node_inv in Hr
      as (? & ? & ? & ? & ? & _ & Hread' & _ & _ & Hid & _).
    split; [now rewrite Hread' | exact Hid].
  - apply Forall_forall. intros [l t] Hin. cbn [fst].
    apply list_elem_of_In in Hin. now apply finditer_nonempty in Hin.
Qed.

Lemma children_follow_links_witness :
  exists children seen',
    parse_md 2 Demo.L Demo.unreadable_child "/docs/a.md" ∅ None
    = Done (Some (Node "/docs/a.md" "a"
                    "<p>[Secret](secret.md) [w](http://example.com/x)</p>"
                    children))
           seen'
    /\ length children = 2.
Proof.
  assert (E : parse_md 2 Demo.L Demo.unreadable_child "/docs/a.md" ∅ None
              = Done (Some (Node "/docs/a.md" "a"
                    "<p>[Secret](secret.md) [w](http://example.com/x)</p>"
                    [Node "/docs/secret.md" "Secret" "<i>Could not load</i>" [];
                     Node "http://example.com/x" "w"
                       "<i>External link: http://example.com/x</i>" []]))
                     {["/docs/a.md"]})
    by (vm_compute; reflexivity).
  eexists _, _. split; [exact E|].
  assert (Hnot : resolve Demo.unreadable_child "/docs/a.md"
                   ∉ (∅ : gset string)) by apply not_elem_of_empty.
  destruct (children_follow_links _ _ _ _ _ _ _ _ E Hnot)
    as (text & fm & body & Hread & Hfm & _ & Hlen).
  vm_compute in Hread. injection Hread as <-.
  vm_compute in Hfm. injection Hfm as <- <-.
  exact Hlen.
Defined.

(** ** Links without a path *)





(** ** What the existence test returns *)

(** X9. [_case_insensitive_existing] never raises [PermissionError], and a
    path it returns is the absolute form of a path that exists: the path
    asked for, or, when that one does not exist, an entry of its directory
    whose name is the name asked for up to case.  When the path does not
    exist and its directory is not a directory, the answer is [None]. *)
Theorem case_insensitive_existing_result (fs : filesystem) (path : string) :
  _case_insensitive_existing fs path <> Raise PermissionError
  /\ (forall r,
        _case_insensitive_existing fs path = Return (Some r) ->
        exists found,
          exists_ fs found = true
          /\ r = abspath (cwd fs) found
          /\ (found = path
              \/ (exists_ fs path = false
                  /\ exists entries entry,
                      listdir fs (dirname path) = Return entries
                      /\ In entry entries
                      /\ found = join (dirname path) entry
                      /\ lower entry = lower (basename path))))
  /\ (exists_ fs path = false -> isdir fs (dirname path) = false ->
      _case_insensitive_existing fs path = Return None).
Proof.
  unfold _case_insensitive_existing. split; [|split].
  - destruct (exists_ fs path); [discriminate|].
    destruct (isdir fs (dirname path)); [|discriminate]. cbn [negb].
    destruct (listdir fs (dirname path)) as [entries|[]]; discriminate.
  - intros r. destruct (exists_ fs path) eqn:He.
    + intros [= <-]. exists path. repeat split; [assumption | now left].
    + destruct (isdir fs (dirname path)); [|discriminate]. cbn [negb].
      destruct (listdir fs (dirname path)) as [entries|e] eqn:Hl.
      2:{ destruct e; discriminate. }
      cbn [exc_bind except_PermissionError]. rewrite first_entry_match_find.
      destruct (List.find _ entries) as [entry|] eqn:Hf; [|discriminate].
      intros [= <-]. apply find_some in Hf as [Hin Hm].
      unfold sibling_match in Hm. apply andb_prop in Hm as [Hname Hex].
      apply String.eqb_eq in Hname.
      exists (join (dirname path) entry). repeat split; try assumption.
      right. split; [reflexivity|]. now exists entries, entry.
  - intros -> ->. reflexivity.
Qed.

Lemma case_insensitive_existing_result_witness :
  exists found,
    exists_ Demo.readme found = true
    /\ "/docs/readme.md" = abspath (cwd Demo.readme) found.
Proof.
  destruct (proj1 (proj2 (case_insensitive_existing_result Demo.readme
                            "/docs/README.md"))
              "/docs/readme.md" eq_refl)
    as (found & Hex & Hr & _).
  now exists found.
Defined.

(** ** What [resolve_link] returns *)

(** A component of a normal absolute path. *)
Definition clean (c : string) : Prop :=
  String.eqb c "" = false /\ String.eqb c "." = false
  /\ String.eqb c ".." = false /\ has_char SEP c = false.

Lemma split_sep_no_sep (s : string) :
  Forall (fun c => has_char SEP c = false) (split_sep s).
Proof.
  induction s as [|c s IH]; cbn [split_sep].
  - now repeat constructor.
  - destruct (Ascii.eqb c SEP) eqn:Hc; [now constructor|].
    destruct (split_sep s) as [|x xs].
    + repeat constructor. cbn [has_char]. now rewrite Hc.
    + apply Forall_cons in IH as [Hx Hxs]. constructor; [|assumption].
      cbn [has_char]. now rewrite Hc, Hx.
Qed.

Lemma split_sep_append (x r : string) :
  has_char SEP x = false ->
  split_sep (x ++ String SEP r) = x :: split_sep r.
Proof.
  induction x as [|c x IH]; cbn [has_char String.append]; intros H.
  - reflexivity.
  - apply orb_false_elim in H as [Hc Hx]. cbn [split_sep].
    now rewrite Hc, (IH Hx).
Qed.

Lemma split_sep_single (x : string) :
  has_char SEP x = false -> split_sep x = [x].
Proof.
  induction x as [|c x IH]; cbn [has_char]; intros H; [reflexivity|].
  apply orb_false_elim in H as [Hc Hx]. cbn [split_sep].
  now rewrite Hc, (IH Hx).
Qed.

Lemma split_join_sep (x : string) (xs : list string) :
  Forall (fun c => has_char SEP c = false) (x :: xs) ->
  split_sep (join_sep (x :: xs)) = x :: xs.
Proof.
  revert x. induction xs as [|y ys IH]; intros x H.
  - apply Forall_cons in H as [Hx _]. now apply split_sep_single.
  - apply Forall_cons in H as [Hx Hrest].
    change (join_sep (x :: y :: ys)) with (x ++ String SEP (join_sep (y :: ys))).
    now rewrite (split_sep_append _ _ Hx), (IH y Hrest).
Qed.

(** With initial slashes, the loop of [normpath] keeps a list of clean
    components clean. *)
Lemma norm_comps_clean_out (k : nat) (comps : list string) :
  k <> 0 ->
  Forall (fun c => has_char SEP c = false) comps ->
  forall acc, Forall clean acc -> Forall clean (norm_comps k comps acc).
Proof.
  intros Hk Hcomps. induction Hcomps as [|c comps Hc Hcomps IH];
    intros acc Hacc; cbn [norm_comps]; [assumption|].
  destruct (String.eqb c "") eqn:E1; [now apply IH|].
  destruct (String.eqb c ".") eqn:E2; [now apply IH|]. cbn [orb].
  assert (Hlast : match last acc with
                  | Some l => String.eqb l ".."
                  | None => false
                  end = false).
  { destruct (last acc) as [l|] eqn:El; [|reflexivity].
    apply last_Some_elem_of in El.
    rewrite Forall_forall in Hacc. exact (proj1 (proj2 (proj2 (Hacc l El)))). }
  rewrite Hlast. destruct k as [|k]; [congruence|]. cbn [Nat.eqb andb].
  rewrite !orb_false_r.
  destruct (String.eqb c "..") eqn:E3; cbn [negb].
  - apply IH. destruct acc as [|a acc _] using rev_ind; [constructor|].
    rewrite removelast_last. now apply Forall_app in Hacc as [Hacc _].
  - apply IH. apply Forall_app. split; [assumption|].
    now repeat constructor.
Qed.

(** On clean components the loop changes nothing. *)
Lemma norm_comps_clean_in (k : nat) (comps : list string) :
  k <> 0 ->
  Forall clean comps ->
  forall acc, norm_comps k comps acc = (acc ++ comps)%list.
Proof.
  intros Hk Hcomps. induction Hcomps as [|c comps Hc Hcomps IH];
    intros acc; cbn [norm_comps]; [now rewrite app_nil_r|].
  destruct Hc as (E1 & E2 & E3 & _). rewrite E1, E2, E3. cbn [orb negb].
  rewrite IH. now rewrite <- app_assoc.
Qed.

Lemma join_sep_clean_head (comps : list string) :
  Forall clean comps -> startswith (join_sep comps) "/" = false.
Proof.
  intros H. destruct H as [|x xs Hx _]; [reflexivity|].
  destruct Hx as (E1 & _ & _ & Hs). destruct x as [|c x]; [discriminate|].
  cbn [has_char] in Hs. apply orb_false_elim in Hs as [Hc _].
  assert (H : exists r, join_sep (String c x :: xs) = String c r)
    by (destruct xs; cbn [join_sep String.append]; eauto).
  destruct H as [r ->]. unfold startswith. cbn [strip_prefix].
  change "/"%char with SEP. rewrite Ascii.eqb_sym. now rewrite Hc.
Qed.

(** The components of an absolute path after [normpath]. *)
Definition abs_comps (path : string) : list string :=
  norm_comps
    (if startswith path "//" && negb (startswith path "///") then 2 else 1)
    (split_sep path) [].

Lemma normpath_abs (path : string) :
  startswith path "/" = true ->
  normpath path
  = (if startswith path "//" && negb (startswith path "///") then "//" else "/")
    ++ join_sep (abs_comps path).
Proof.
  intros Habs. unfold normpath, abs_comps. rewrite Habs.
  destruct path as [|c path]; [discriminate|]. cbn [nonempty negb].
  destruct (startswith (String c path) "//"
            && negb (startswith (String c path) "///")); reflexivity.
Qed.

Lemma abs_comps_clean (path : string) : Forall clean (abs_comps path).
Proof.
  unfold abs_comps. apply norm_comps_clean_out.
  - now destruct (_ && _).
  - apply split_sep_no_sep.
  - constructor.
Qed.

Lemma norm_comps_join (k : nat) (comps : list string) :
  k <> 0 -> Forall clean comps ->
  norm_comps k (split_sep (join_sep comps)) [] = comps.
Proof.
  intros Hk Hclean. destruct comps as [|x xs]; [reflexivity|].
  rewrite split_join_sep.
  - now rewrite norm_comps_clean_in.
  - eapply Forall_impl; [exact Hclean|]. now intros c (_ & _ & _ & H).
Qed.

Lemma startswith_cons (c : ascii) (s p : string) :
  startswith (String c s) (String c p) = startswith s p.
Proof. unfold startswith. cbn [strip_prefix]. now rewrite Ascii.eqb_refl. Qed.

(** [normpath] changes nothing in what it returned for an absolute path. *)
Lemma normpath_idempotent (path : string) :
  startswith path "/" = true ->
  normpath (normpath path) = normpath path
  /\ startswith (normpath path) "/" = true.
Proof.
  intros Habs. rewrite (normpath_abs path Habs).
  pose proof (abs_comps_clean path) as Hclean.
  pose proof (join_sep_clean_head _ Hclean) as Hhead.
  set (comps := abs_comps path) in *.
  destruct (startswith path "//" && negb (startswith path "///")).
  - split; [|reflexivity].
    assert (H2 : startswith ("//" ++ join_sep comps) "//"
                 && negb (startswith ("//" ++ join_sep comps) "///") = true).
    { cbn [String.append]. rewrite !startswith_cons, Hhead. reflexivity. }
    rewrite normpath_abs by reflexivity. rewrite H2. f_equal.
    unfold abs_comps. rewrite H2.
    change (split_sep ("//" ++ join_sep comps))
      with (EmptyString :: EmptyString :: split_sep (join_sep comps)).
    cbn [norm_comps String.eqb orb].
    now rewrite norm_comps_join by (assumption || discriminate).
  - split; [|reflexivity].
    assert (H1 : startswith ("/" ++ join_sep comps) "//"
                 && negb (startswith ("/" ++ join_sep comps) "///") = false).
    { cbn [String.append]. rewrite !startswith_cons, Hhead. reflexivity. }
    rewrite normpath_abs by reflexivity. rewrite H1. f_equal.
    unfold abs_comps. rewrite H1.
    change (split_sep ("/" ++ join_sep comps))
      with (EmptyString :: split_sep (join_sep comps)).
    cbn [norm_comps String.eqb orb].
    now rewrite norm_comps_join by (assumption || discriminate).
Qed.

Lemma startswith_append_l (a b : string) :
  startswith a "/" = true -> startswith (a ++ b) "/" = true.
Proof.
  destruct a as [|c a]; [discriminate|]. unfold startswith.
  cbn [String.append strip_prefix]. now destruct (Ascii.eqb "/" c).
Qed.

(** With an absolute current directory, [abspath] returns an absolute path
    and changes nothing in a path it returned. *)
Lemma abspath_absolute (cwd0 path : string) :
  startswith cwd0 "/" = true ->
  startswith (abspath cwd0 path) "/" = true
  /\ abspath cwd0 (abspath cwd0 path) = abspath cwd0 path.
Proof.
  intros Hcwd. unfold abspath.
  set (y := if startswith path "/" then path else join cwd0 path).
  assert (Hy : startswith y "/" = true).
  { unfold y. destruct (startswith path "/") eqn:Hp; [exact Hp|].
    unfold join. rewrite Hp.
    destruct (negb (nonempty cwd0) || endswith_char cwd0 SEP);
      now apply startswith_append_l. }
  destruct (normpath_idempotent y Hy) as [Hidem Habs].
  split; [exact Habs|]. now rewrite Habs.
Qed.

Lemma case_insensitive_existing_found (fs : filesystem) (c hit : string) :
  _case_insensitive_existing fs c = Return (Some hit) ->
  exists found, exists_ fs found = true /\ hit = abspath (cwd fs) found.
Proof.
  unfold _case_insensitive_existing. destruct (exists_ fs c) eqn:He.
  - intros [= <-]. now exists c.
  - destruct (isdir fs (dirname c)); [|discriminate]. cbn [negb].
    destruct (listdir fs (dirname c)) as [entries|e];
      [|destruct e; discriminate].
    cbn [exc_bind except_PermissionError]. rewrite first_entry_match_find.
    destruct (List.find _ entries) as [entry|] eqn:Hf; [|discriminate].
    intros [= <-]. apply find_some in Hf as [_ Hm].
    unfold sibling_match in Hm. apply andb_prop in Hm as [_ Hex].
    now exists (join (dirname c) entry).
Qed.

(** X11. With an absolute current directory, a path that [resolve_link]
    returns is absolute and normal ([abspath] leaves it as it is), it is
    the absolute form of a path that exists, and its extension in lower
    case is [.md], [.markdown] or [.mdx]; and the link is then not an
    external one. *)
Theorem resolve_link_result (L : libs) (fs : filesystem)
  (base_file link r : string) :
  startswith (cwd fs) "/" = true ->
  resolve_link L fs base_file link = Return (Some r) ->
  In (lower (snd (splitext r))) MD_EXTS
  /\ startswith r "/" = true
  /\ abspath (cwd fs) r = r
  /\ (exists found, exists_ fs found = true /\ r = abspath (cwd fs) found)
  /\ is_external_link L link = Return false.
Proof.
  intros Hcwd. unfold resolve_link, is_external_link.
  destruct (urlparse L link) as [p|e]; [|discriminate]. cbn [exc_bind].
  destruct (nonempty (scheme p) && nonempty (netloc p)); [discriminate|].
  destruct (negb _); [discriminate|]. intros Hhit.
  apply first_hit_Some in Hhit as (pre & c & post & _ & _ & Hc).
  apply candidate_hit_Some in Hc as (hit & Hex & _ & Hext & ->).
  apply case_insensitive_existing_found in Hex as (found & Hfound & ->).
  destruct (abspath_absolute (cwd fs) found Hcwd) as [Habs Hidem].
  rewrite Hidem in *. repeat split; try assumption.
  now exists found.
Qed.

Lemma resolve_link_result_witness :
  In (lower (snd (splitext "/docs/readme.md"))) MD_EXTS
  /\ abspath (cwd Demo.readme) "/docs/readme.md" = "/docs/readme.md".
Proof.
  destruct (resolve_link_result Demo.L Demo.readme "/docs/a.md" "README.md"
              "/docs/readme.md" eq_refl eq_refl)
    as (Hext & _ & Hidem & _).
  now split.
Defined.

(** ** Texts that are not taken for frontmatter *)

Fixpoint count_char (c : ascii) (s : string) : nat :=
  match s with
  | EmptyString => 0
  | String a s' => (if Ascii.eqb a c then 1 else 0) + count_char c s'
  end.

Lemma count_char_append (c : ascii) (a b : string) :
  count_char c (a ++ b) = count_char c a + count_char c b.
Proof.
  induction a as [|x a IH]; cbn [String.append count_char]; [reflexivity|].
  rewrite IH. lia.
Qed.

Lemma delimited_shape (text fm_text body : string) :
  delimited text fm_text body ->
  startswith text "---" = true /\ 3 <= count_char NL text.
Proof.
  intros (ws1 & ws2 & _ & _ & ->). split; [reflexivity|].
  rewrite !count_char_append. unfold NLs. cbn [count_char].
  rewrite Ascii.eqb_refl. lia.
Qed.

(** X12. A text that does not start with three dashes, or that has fewer
    than three newlines, has no frontmatter for [parse_frontmatter]: the
    result is the empty mapping and the whole text.  So a file that ends
    right after the closing dashes, with no newline behind them, keeps its
    metadata block in the body. *)
Theorem frontmatter_needs_three_lines (L : libs) (text : string) :
  startswith text "---" = false \/ count_char NL text < 3 ->
  frontmatter_match text = None
  /\ parse_frontmatter L text = Return (PyDict [], text).
Proof.
  intros H.
  assert (Hm : frontmatter_match text = None).
  { destruct (frontmatter_match text) as [[fm_text body]|] eqn:E;
      [|reflexivity].
    apply frontmatter_match_sound, delimited_shape in E as [Hs Hc].
    destruct H as [H|H]; [congruence | lia]. }
  split; [exact Hm|]. unfold parse_frontmatter. now rewrite Hm.
Qed.

Lemma frontmatter_needs_three_lines_witness :
  parse_frontmatter Demo.L ("---" ++ NLs ++ "title: x" ++ NLs ++ "---")
  = Return (PyDict [], "---" ++ NLs ++ "title: x" ++ NLs ++ "---").
Proof.
  assert (H : count_char NL ("---" ++ NLs ++ "title: x" ++ NLs ++ "---") < 3)
    by (vm_compute; lia).
  exact (proj2 (frontmatter_needs_three_lines Demo.L _ (or_intror H))).
Defined.

(** ** What a node shows of a file with frontmatter *)

(** X13. For a file that is a frontmatter document (the block starting
    with a character other than white space and holding no line of three
    dashes, the body not starting with white space), the node [parse_md]
    returns has the rendering of the body alone as content, and, when the
    file was not visited before, as many children as the body has links:
    links written in the metadata block are not followed. *)
Theorem frontmatter_block_not_walked (L : libs) (fs : filesystem)
  (fuel : nat) (path : string) (seen seen' : seen_set)
  (link_text : option string) (n : node) (block body : string) :
  nonempty block = true ->
  starts_with_space block = false ->
  occurs (NLs ++ "---") (block ++ NLs ++ "--") = false ->
  starts_with_space body = false ->
  read_text fs (resolve fs path) = Some (frontmatter_document block body) ->
  parse_md fuel L fs path seen link_text = Done (Some n) seen' ->
  node_content n = render_html L body
  /\ (resolve fs path ∉ seen ->
      length (node_children n) = length (extract_links body)).
Proof.
  intros Hne Hblock Hocc Hbody Hread H.
  pose proof (frontmatter_match_document block body Hne Hblock Hocc Hbody)
    as Hm.
  apply parse_md_node_inv in H
    as (fuel' & text & fm & body' & fm_title & _ & Hread' & Hfm & _ & _ & _
        & Hcontent & _ & Hw).
  rewrite Hread in Hread'. injection Hread' as <-.
  assert (Hbody' : body' = body).
  { unfold parse_frontmatter in Hfm. rewrite Hm in Hfm.
    destruct (safe_load L block); cbn [exc_bind try_except] in Hfm;
      now injection Hfm as _ <-. }
  subst body'. split; [exact Hcontent|]. intros Hnot.
  apply (walk_links_children (parse_md fuel' L fs)) in Hw
    as (extra & Hcs & Hall); [|..|apply Hnot].
  - cbn [app] in Hcs. rewrite Hcs. symmetry. exact (Forall2_length _ _ _ Hall).
  - intros r s lt s' Hr. exact (parse_md_none_inv _ _ _ _ _ _ _ Hr).
  - intros r s lt c s' Hr.
    apply parse_md_node_inv in Hr
      as (? & ? & ? & ? & ? & _ & Hread' & _ & _ & Hid & _).
    split; [now rewrite Hread' | exact Hid].
  - apply Forall_forall. intros [l t] Hin. cbn [fst].
    apply list_elem_of_In in Hin. now apply finditer_nonempty in Hin.
Qed.

(** A file whose metadata block holds a link. *)
Definition link_in_block : filesystem :=
  Demo.mkfs [("/docs", ["a.md"; "b.md"])]
    [("/docs/a.md", frontmatter_document "see: [B](b.md)" "plain body");
     ("/docs/b.md", "b")]
    [] [].

Lemma frontmatter_block_not_walked_witness :
  exists n seen',
    parse_md 1 Demo.L link_in_block "/docs/a.md" ∅ None = Done (Some n) seen'
    /\ node_content n = "<p>plain body</p>"
    /\ length (node_children n) = 0.
Proof.
  assert (E : parse_md 1 Demo.L link_in_block "/docs/a.md" ∅ None
              = Done (Some (Node "/docs/a.md" "a" "<p>plain body</p>" []))
                     {["/docs/a.md"]})
    by (vm_compute; reflexivity).
  eexists _, _. split; [exact E|].
  destruct (frontmatter_block_not_walked Demo.L link_in_block 1 "/docs/a.md"
              ∅ _ None _ "see: [B](b.md)" "plain body"
              eq_refl eq_refl eq_refl eq_refl eq_refl E) as [Hc Hl].
  split; [exact Hc|]. apply Hl. apply not_elem_of_empty.
Defined.

(** ** Exceptions of the libraries *)

(** X14. A link target that [urlparse] rejects stops the walk: both
    [is_external_link] and [resolve_link] raise what [urlparse] raised, and
    so does the loop of [parse_md] when it comes to that link. *)
Theorem urlparse_error_propagates (L : libs) (fs : filesystem)
  (target : string) (e : exn) :
  urlparse L target = Raise e ->
  is_external_link L target = Raise e
  /\ (forall base_file, resolve_link L fs base_file target = Raise e)
  /\ forall recur path label rest children seen,
      walk_links recur L fs path ((label, target) :: rest) children seen
      = Raised e.
Proof.
  intros Hp. unfold is_external_link, resolve_link. rewrite Hp.
  cbn [exc_bind]. split; [reflexivity|]. split; [reflexivity|].
  intros. cbn [walk_links]. unfold is_external_link. now rewrite Hp.
Qed.

Lemma urlparse_error_propagates_witness :
  walk_links (parse_md 1 Demo.L Demo.cyclic) Demo.L Demo.cyclic "/docs/a.md"
    [("x", "http://[bad")] [] ∅
  = Raised ValueError.
Proof.
  exact (proj2 (proj2 (urlparse_error_propagates Demo.L Demo.cyclic
                         "http://[bad" ValueError eq_refl))
           _ "/docs/a.md" "x" [] [] ∅).
Defined.

(** X15. Only [PermissionError] is caught around the directory listing:
    when a candidate does not exist, its directory is a directory and
    listing it raises another exception, [_case_insensitive_existing]
    raises it, and so do the test of the candidate and the loop over the
    candidates. *)
Theorem listing_error_propagates (fs : filesystem) (c : string) (e : exn) :
  exists_ fs c = false ->
  isdir fs (dirname c) = true ->
  listdir fs (dirname c) = Raise e ->
  e <> PermissionError ->
  _case_insensitive_existing fs c = Raise e
  /\ candidate_hit fs c = Raise e
  /\ forall rest, first_hit fs (c :: rest) = Raise e.
Proof.
  intros He Hd Hl Hne.
  assert (H : _case_insensitive_existing fs c = Raise e).
  { unfold _case_insensitive_existing. rewrite He, Hd, Hl. cbn.
    destruct e; try reflexivity. now contradiction Hne. }
  assert (Hc : candidate_hit fs c = Raise e)
    by (unfold candidate_hit; now rewrite H).
  repeat split; try assumption. intros rest. cbn [first_hit]. now rewrite Hc.
Qed.

(** A file system in which listing [/docs] fails with an [OSError]. *)
Definition broken_listing : filesystem :=
  {| cwd := "/";
     exists_ := fun p => String.eqb p "/docs";
     isdir := fun p => String.eqb p "/docs";
     listdir := fun _ => Raise OSError;
     read_text := fun _ => None;
     resolve := fun p => p |}.

Lemma listing_error_propagates_witness :
  _case_insensitive_existing broken_listing "/docs/notes.md" = Raise OSError.
Proof.
  apply (listing_error_propagates broken_listing "/docs/notes.md" OSError);
    [reflexivity | reflexivity | reflexivity | discriminate].
Defined.
